(** * libosmium: geometry factory and diff visitor

    A shallow embedding of

    - [include/osmium/geom/factory.hpp] (class [GeometryFactory<G, T>]) and
    - [include/osmium/diff_visitor.hpp] ([apply_diff] and its helper
      [detail::apply_diff_iterator_recurse]),

    followed by the properties of the two that the specification states.

    C++ member functions that mutate [*this] and may throw become
    functions in a state-and-exception monad: a computation takes the
    object's state and gives back an outcome (a value or the exception
    thrown) together with the state the object is left in.  The state is
    kept on both paths, because a C++ exception does not undo the
    mutations made before it was thrown. *)

From Stdlib Require Import ZArith String List Bool Lia.
Import ListNotations.

Set Implicit Arguments.

(* ================================================================== *)
(** * Exceptions and the computation monad *)

(** The exception classes the two headers throw or let through:
    [osmium::geometry_error] (factory.hpp, derived from
    [std::runtime_error]), [osmium::invalid_location] (raised by the
    concrete factories) and [std::runtime_error] (diff_visitor.hpp). *)
Inductive exn : Type :=
| geometry_error (what : string)
| invalid_location (what : string)
| runtime_error (what : string).

Inductive outcome (A : Type) : Type :=
| Ok (a : A)
| Throw (e : exn).

Arguments Ok {A} a.
Arguments Throw {A} e.

Definition M (S A : Type) : Type := S -> outcome A * S.

Definition ret {S A : Type} (a : A) : M S A :=
  fun s => (Ok a, s).

Definition throw {S A : Type} (e : exn) : M S A :=
  fun s => (Throw e, s).

Definition bind {S A B : Type} (m : M S A) (k : A -> M S B) : M S B :=
  fun s =>
    match m s with
    | (Ok a, s') => k a s'
    | (Throw e, s') => (Throw e, s')
    end.

Declare Scope cxx_scope.
Delimit Scope cxx_scope with cxx.

Notation "x <- m ;; k" := (bind m (fun x => k))
  (at level 61, m at next level, right associativity) : cxx_scope.
Notation "m ;; k" := (bind m (fun _ => k))
  (at level 61, right associativity) : cxx_scope.

Open Scope cxx_scope.

(** Did the call return normally? *)
Definition returns {A : Type} (o : outcome A) : bool :=
  match o with
  | Ok _ => true
  | Throw _ => false
  end.

(* ================================================================== *)
(** * Machine integers *)

(** [std::size_t] arithmetic is modulo 2^64; a conversion to [int] keeps
    the low 32 bits, read in two's complement. *)
Definition size_t_wrap (z : Z) : Z := (z mod 2 ^ 64)%Z.

Definition int_wrap (z : Z) : Z := ((z + 2 ^ 31) mod 2 ^ 32 - 2 ^ 31)%Z.

Definition INT_MAX : Z := (2 ^ 31 - 1)%Z.

(* ================================================================== *)
(** * The entity model *)

(** Modelled from the spec: [osmium/osm/item_type.hpp] is not among the
    sources.  The enumerators the two headers name are kept by name; every
    other tag value is [other] with its numeric code. *)
Module item_type.

Inductive t : Type :=
| node
| way
| relation
| outer_ring
| inner_ring
| other (code : Z).

End item_type.

(** Modelled from the spec: [osmium/osm/location.hpp] is not among the
    sources.  A Location is a coordinate pair or the distinguished
    undefined value, which is what the default constructor [Location()]
    gives; equality is value equality.  Coordinates are fixed-point
    integers. *)
Inductive Location : Type :=
| undefined
| coordinates (x y : Z).

Definition Location_eqb (a b : Location) : bool :=
  match a, b with
  | undefined, undefined => true
  | coordinates x1 y1, coordinates x2 y2 => (x1 =? x2)%Z && (y1 =? y2)%Z
  | _, _ => false
  end.

(** [operator!=] on Locations. *)
Definition Location_neq (a b : Location) : bool := negb (Location_eqb a b).

Definition defined (l : Location) : bool :=
  match l with
  | undefined => false
  | coordinates _ _ => true
  end.

(** [osmium::NodeRef]: an id and a Location. *)
Record NodeRef : Type := mkNodeRef {
  ref : Z;
  location : Location
}.

(** [osmium::Node], as far as the factory looks at it. *)
Record Node : Type := mkNode {
  id : Z;
  node_location : Location
}.

(** [osmium::WayNodeList], [osmium::OuterRing] and [osmium::InnerRing] are
    all NodeRef lists. *)
Definition NodeRefList : Type := list NodeRef.
Definition WayNodeList : Type := NodeRefList.
Definition OuterRing : Type := NodeRefList.

(** [osmium::Way], as far as the factory looks at it: [way.nodes()]. *)
Record Way : Type := mkWay {
  way_id : Z;
  way_nodes : WayNodeList
}.

(** [wnl[i]]: unchecked indexing.  The value at an index past the end is
    what the C++ leaves undefined; [index_in_range] below shows that the
    factory never asks for one. *)
Definition at_index (wnl : NodeRefList) (i : nat) : NodeRef :=
  nth i wnl (mkNodeRef 0 undefined).

(* ================================================================== *)
(** * osmium/geom/factory.hpp *)

Module geom.

(** [enum class use_nodes : bool]. *)
Inductive use_nodes : Type :=
| unique  (* Remove consecutive nodes with same location. *)
| all.    (* Use all nodes. *)

(** [enum class direction : bool]. *)
Inductive direction : Type :=
| backward  (* Linestring has reverse direction. *)
| forward.  (* Linestring has same direction as way. *)

(** A sub-item of an Area, as [create_multipolygon] sees it through
    [area.cbegin()]: its type tag and, read through the unconditional
    [static_cast<const OuterRing&>], its NodeRefs.  For an item that is no
    ring the second field is never looked at. *)
Record Item : Type := mkItem {
  type : item_type.t;
  nodes : OuterRing
}.

Definition Area : Type := list Item.

(** The implementation class [G] of [GeometryFactory<G, T>]: the member
    functions the factory calls through [static_cast<G*>(this)], each
    acting on the state of the [G] object, and the result types of the
    traits class [T]. *)
Class GeometryImpl (G : Type) : Type := {
  point_type : Type;
  linestring_type : Type;
  multipolygon_type : Type;
  make_point : Location -> M G point_type;
  linestring_start : M G unit;
  linestring_add_location : Location -> M G unit;
  linestring_finish : M G linestring_type;
  multipolygon_start : M G unit;
  multipolygon_outer_ring_start : M G unit;
  multipolygon_outer_ring_finish : M G unit;
  multipolygon_inner_ring_start : M G unit;
  multipolygon_inner_ring_finish : M G unit;
  multipolygon_add_location : Location -> M G unit;
  multipolygon_finish : M G multipolygon_type
}.

Section GeometryFactory.

Context {G : Type} {impl : GeometryImpl G}.

(** The range-for of [add_points]; the local [last_location] is the
    first argument. *)
Fixpoint add_points_loop (last_location : Location) (nodes : OuterRing) : M G unit :=
  match nodes with
  | [] => ret tt
  | n :: rest =>
      if Location_neq last_location (location n) then
        let last_location := location n in
        multipolygon_add_location last_location ;;
        add_points_loop last_location rest
      else
        add_points_loop last_location rest
  end.

Definition add_points (nodes : OuterRing) : M G unit :=
  let last_location := undefined in
  add_points_loop last_location nodes.

(* Point *)

Definition create_point (location : Location) : M G point_type :=
  make_point location.

Definition create_point_node (node : Node) : M G point_type :=
  create_point (node_location node).

Definition create_point_node_ref (way_node : NodeRef) : M G point_type :=
  create_point (location way_node).

(* LineString *)

(** [for (auto& wn : wnl)] in the [unique] branch. *)
Fixpoint unique_forward_loop (last_location : Location) (wnl : WayNodeList) : M G unit :=
  match wnl with
  | [] => ret tt
  | wn :: rest =>
      if Location_neq last_location (location wn) then
        let last_location := location wn in
        linestring_add_location last_location ;;
        unique_forward_loop last_location rest
      else
        unique_forward_loop last_location rest
  end.

(** [int i = wnl.size()-1]: the subtraction is done in [size_t], the
    result is converted to [int]. *)
Definition start_index (wnl : WayNodeList) : Z :=
  int_wrap (size_t_wrap (Z.of_nat (length wnl) - 1)).

(** The counter of [for (int i = ...; i >= 0; --i)] only goes down, so it
    is kept as the natural number [i + 1]: [S i] is the test [i >= 0]
    succeeding at [i], [O] is [i = -1], where the loop ends. *)
Definition iterations (start : Z) : nat := Z.to_nat (start + 1).

(** A node list fits the [int] index when [wnl.size()-1] is at most
    [INT_MAX]. *)
Definition fits_int (wnl : WayNodeList) : Prop :=
  (Z.of_nat (length wnl) - 1 <= INT_MAX)%Z.

Fixpoint unique_backward_loop (wnl : WayNodeList) (last_location : Location) (k : nat) : M G unit :=
  match k with
  | O => ret tt
  | S i =>
      if Location_neq last_location (location (at_index wnl i)) then
        let last_location := location (at_index wnl i) in
        linestring_add_location last_location ;;
        unique_backward_loop wnl last_location i
      else
        unique_backward_loop wnl last_location i
  end.

(** [for (auto& wn : wnl)] in the [all] branch. *)
Fixpoint all_forward_loop (wnl : WayNodeList) : M G unit :=
  match wnl with
  | [] => ret tt
  | wn :: rest =>
      linestring_add_location (location wn) ;;
      all_forward_loop rest
  end.

Fixpoint all_backward_loop (wnl : WayNodeList) (k : nat) : M G unit :=
  match k with
  | O => ret tt
  | S i =>
      linestring_add_location (location (at_index wnl i)) ;;
      all_backward_loop wnl i
  end.

Definition create_linestring (wnl : WayNodeList) (un : use_nodes) (dir : direction)
  : M G linestring_type :=
  linestring_start ;;
  match un with
  | unique =>
      let last_location := undefined in
      match dir with
      | forward => unique_forward_loop last_location wnl
      | backward => unique_backward_loop wnl last_location (iterations (start_index wnl))
      end
  | all =>
      match dir with
      | forward => all_forward_loop wnl
      | backward => all_backward_loop wnl (iterations (start_index wnl))
      end
  end ;;
  linestring_finish.

(** [create_linestring(const osmium::Way& way, un, dir)]. *)
Definition create_linestring_way (way : Way) (un : use_nodes) (dir : direction)
  : M G linestring_type :=
  create_linestring (way_nodes way) un dir.

(* MultiPolygon *)

(** [++num_rings] on an [int]. *)
Definition incr (num_rings : Z) : Z := int_wrap (num_rings + 1).

(** The loop over [area.cbegin() .. area.cend()]; it hands the local
    [num_rings] on and returns its final value. *)
Fixpoint rings_loop (num_rings : Z) (items : list Item) : M G Z :=
  match items with
  | [] => ret num_rings
  | it :: rest =>
      let ring := nodes it in
      match type it with
      | item_type.outer_ring =>
          let num_rings := incr num_rings in
          multipolygon_outer_ring_start ;;
          add_points ring ;;
          multipolygon_outer_ring_finish ;;
          rings_loop num_rings rest
      | item_type.inner_ring =>
          let num_rings := incr num_rings in
          multipolygon_inner_ring_start ;;
          add_points ring ;;
          multipolygon_inner_ring_finish ;;
          rings_loop num_rings rest
      | _ => rings_loop num_rings rest
      end
  end.

Definition create_multipolygon (area : Area) : M G multipolygon_type :=
  let num_rings := 0%Z in
  multipolygon_start ;;
  num_rings <- rings_loop num_rings area ;;
  (* if there are no rings, this area is invalid *)
  if (num_rings =? 0)%Z then
    throw (geometry_error "invalid area"%string)
  else
    multipolygon_finish.

End GeometryFactory.

(* ------------------------------------------------------------------ *)
(** ** Observing the calls made on the implementation *)

(** One constructor per member function of the implementation class. *)
Inductive Call : Type :=
| call_make_point (l : Location)
| call_linestring_start
| call_linestring_add_location (l : Location)
| call_linestring_finish
| call_multipolygon_start
| call_multipolygon_outer_ring_start
| call_multipolygon_outer_ring_finish
| call_multipolygon_inner_ring_start
| call_multipolygon_inner_ring_finish
| call_multipolygon_add_location (l : Location)
| call_multipolygon_finish.

(** [logged c m] notes the call [c] in a log kept next to the object and
    then does what [m] does, whether [m] returns or throws. *)
Definition logged {G A : Type} (c : Call) (m : M G A) : M (list Call * G) A :=
  fun s =>
    match m (snd s) with
    | (r, g') => (r, (fst s ++ [c], g'))
    end.

(** Any implementation class, with every member function logged.  The
    factory above runs on it unchanged. *)
#[global] Instance Logging (G : Type) (impl : GeometryImpl G) : GeometryImpl (list Call * G) := {|
  point_type := @point_type G impl;
  linestring_type := @linestring_type G impl;
  multipolygon_type := @multipolygon_type G impl;
  make_point := fun l => logged (call_make_point l) (make_point l);
  linestring_start := logged call_linestring_start linestring_start;
  linestring_add_location := fun l => logged (call_linestring_add_location l) (linestring_add_location l);
  linestring_finish := logged call_linestring_finish linestring_finish;
  multipolygon_start := logged call_multipolygon_start multipolygon_start;
  multipolygon_outer_ring_start := logged call_multipolygon_outer_ring_start multipolygon_outer_ring_start;
  multipolygon_outer_ring_finish := logged call_multipolygon_outer_ring_finish multipolygon_outer_ring_finish;
  multipolygon_inner_ring_start := logged call_multipolygon_inner_ring_start multipolygon_inner_ring_start;
  multipolygon_inner_ring_finish := logged call_multipolygon_inner_ring_finish multipolygon_inner_ring_finish;
  multipolygon_add_location := fun l => logged (call_multipolygon_add_location l) (multipolygon_add_location l);
  multipolygon_finish := logged call_multipolygon_finish multipolygon_finish
|}.

(** The calls a factory member function makes on the implementation when
    started in state [g], in the order it makes them, and the way it
    exits. *)
Definition calls_of {G A : Type} (m : M (list Call * G) A) (g : G) : list Call :=
  fst (snd (m ([], g))).

Definition exit_of {G A : Type} (m : M (list Call * G) A) (g : G) : outcome A :=
  fst (m ([], g)).

Section Scripts.

Context {G : Type} {impl : GeometryImpl G}.

(** Making one call and dropping what it returns. *)
Definition perform (c : Call) : M G unit :=
  match c with
  | call_make_point l => make_point l ;; ret tt
  | call_linestring_start => linestring_start
  | call_linestring_add_location l => linestring_add_location l
  | call_linestring_finish => linestring_finish ;; ret tt
  | call_multipolygon_start => multipolygon_start
  | call_multipolygon_outer_ring_start => multipolygon_outer_ring_start
  | call_multipolygon_outer_ring_finish => multipolygon_outer_ring_finish
  | call_multipolygon_inner_ring_start => multipolygon_inner_ring_start
  | call_multipolygon_inner_ring_finish => multipolygon_inner_ring_finish
  | call_multipolygon_add_location l => multipolygon_add_location l
  | call_multipolygon_finish => multipolygon_finish ;; ret tt
  end.

(** Making a list of calls one after the other, up to the first that
    throws. *)
Fixpoint run_calls (cs : list Call) : M G unit :=
  match cs with
  | [] => ret tt
  | c :: rest => perform c ;; run_calls rest
  end.

(** The calls of [cs] that [run_calls] gets to: all of them, or those up
    to and including the first that throws. *)
Fixpoint attempted (cs : list Call) (g : G) : list Call :=
  match cs with
  | [] => []
  | c :: rest =>
      match perform c g with
      | (Ok _, g') => c :: attempted rest g'
      | (Throw _, _) => [c]
      end
  end.

End Scripts.

(* ------------------------------------------------------------------ *)
(** ** What the loops compute *)

(** Consecutive-duplicate collapsing: a Location is kept when it differs
    from the one before it, [last] standing before the first. *)
Fixpoint collapse (last : Location) (ls : list Location) : list Location :=
  match ls with
  | [] => []
  | l :: rest =>
      if Location_neq last l then l :: collapse l rest else collapse l rest
  end.

(** The same, said without recursion: pair every Location with its
    predecessor and keep those that differ from it. *)
Definition keep_changes (first_pred : Location) (ls : list Location) : list Location :=
  map snd (filter (fun p => Location_neq (fst p) (snd p)) (combine (first_pred :: ls) ls)).

(** No two neighbours of the list are equal. *)
Fixpoint no_consecutive_equal (ls : list Location) : bool :=
  match ls with
  | [] => true
  | a :: rest =>
      match rest with
      | [] => true
      | b :: _ => Location_neq a b && no_consecutive_equal rest
      end
  end.

(** The nodes [create_linestring] visits, in the order it visits them. *)
Definition visited (dir : direction) (wnl : WayNodeList) : list NodeRef :=
  match dir with
  | forward => wnl
  | backward => rev (firstn (iterations (start_index wnl)) wnl)
  end.


(** Neither the first nor the last node of the list has the undefined
    Location. *)
Definition ends_defined (wnl : WayNodeList) : bool :=
  match wnl with
  | [] => true
  | n :: rest => defined (location n) && defined (location (last rest n))
  end.

(** The Locations [create_linestring] hands to [linestring_add_location]
    when nothing throws. *)
Definition linestring_locations (wnl : WayNodeList) (un : use_nodes) (dir : direction)
  : list Location :=
  match un with
  | unique => collapse undefined (map location (visited dir wnl))
  | all => map location (visited dir wnl)
  end.

Definition linestring_script (wnl : WayNodeList) (un : use_nodes) (dir : direction)
  : list Call :=
  call_linestring_start
    :: map call_linestring_add_location (linestring_locations wnl un dir)
    ++ [call_linestring_finish].

(** The Locations of a ring that [add_points] hands on. *)
Definition ring_locations (ring : OuterRing) : list Location :=
  collapse undefined (map location ring).

Definition is_ring (it : Item) : bool :=
  match type it with
  | item_type.outer_ring | item_type.inner_ring => true
  | _ => false
  end.

Definition item_script (it : Item) : list Call :=
  match type it with
  | item_type.outer_ring =>
      call_multipolygon_outer_ring_start
        :: map call_multipolygon_add_location (ring_locations (nodes it))
        ++ [call_multipolygon_outer_ring_finish]
  | item_type.inner_ring =>
      call_multipolygon_inner_ring_start
        :: map call_multipolygon_add_location (ring_locations (nodes it))
        ++ [call_multipolygon_inner_ring_finish]
  | _ => []
  end.

Definition rings_script (area : Area) : list Call :=
  flat_map item_script area.

(** How many items of the Area are outer or inner rings. *)
Definition count_rings (area : Area) : nat :=
  length (filter is_ring area).

(** The value of [num_rings] after the loop: one [++num_rings] for each
    ring. *)
Definition final_count (area : Area) : Z :=
  Nat.iter (count_rings area) incr 0%Z.

(** The calls of [create_multipolygon] when nothing throws before the
    test on [num_rings]. *)
Definition multipolygon_script (area : Area) : list Call :=
  (call_multipolygon_start :: rings_script area)
    ++ (if (final_count area =? 0)%Z then [] else [call_multipolygon_finish]).

(** The Locations handed to [linestring_add_location] in a list of
    calls. *)
Fixpoint added_locations (cs : list Call) : list Location :=
  match cs with
  | [] => []
  | call_linestring_add_location l :: rest => l :: added_locations rest
  | _ :: rest => added_locations rest
  end.



(* ------------------------------------------------------------------ *)
(** ** Sessions *)

Inductive Session : Type :=
| linestring_session
| multipolygon_session
| outer_ring_session
| inner_ring_session.

Definition Session_eqb (a b : Session) : bool :=
  match a, b with
  | linestring_session, linestring_session
  | multipolygon_session, multipolygon_session
  | outer_ring_session, outer_ring_session
  | inner_ring_session, inner_ring_session => true
  | _, _ => false
  end.

Definition opens (c : Call) : option Session :=
  match c with
  | call_linestring_start => Some linestring_session
  | call_multipolygon_start => Some multipolygon_session
  | call_multipolygon_outer_ring_start => Some outer_ring_session
  | call_multipolygon_inner_ring_start => Some inner_ring_session
  | _ => None
  end.

Definition closes (c : Call) : option Session :=
  match c with
  | call_linestring_finish => Some linestring_session
  | call_multipolygon_finish => Some multipolygon_session
  | call_multipolygon_outer_ring_finish => Some outer_ring_session
  | call_multipolygon_inner_ring_finish => Some inner_ring_session
  | _ => None
  end.

(** Runs through a list of calls with the stack of sessions that are
    open, innermost first.  A start call opens its session; a finish call
    closes the innermost open session, which has to be its own.  The
    result is the stack at the end, or [None] if some finish call found
    its session not open or not innermost. *)
Fixpoint sessions (open : list Session) (cs : list Call) : option (list Session) :=
  match cs with
  | [] => Some open
  | c :: rest =>
      match opens c with
      | Some s => sessions (s :: open) rest
      | None =>
          match closes c with
          | Some s =>
              match open with
              | s' :: open' => if Session_eqb s s' then sessions open' rest else None
              | [] => None
              end
          | None => sessions open rest
          end
      end
  end.

(** Every session opened in [cs] is closed in [cs], once, by its own
    finish call. *)
Definition all_closed (cs : list Call) : bool :=
  match sessions [] cs with
  | Some [] => true
  | _ => false
  end.

(* ------------------------------------------------------------------ *)
(** ** The order of the calls *)

(** How far the building of one geometry has come: no call yet; started,
    with the sessions that are open (innermost first) and the number of
    rings closed so far; or finished. *)
Inductive Progress : Type :=
| not_started
| in_progress (open : list Session) (rings : nat)
| finished.

(** The calls that build a linestring, in the only order allowed:
    [linestring_start], once and first; [linestring_add_location], any
    number of times; [linestring_finish], once and last.  Any other call,
    or one of these at another time, gives [None]. *)
Definition linestring_step (p : Progress) (c : Call) : option Progress :=
  match c, p with
  | call_linestring_start, not_started =>
      Some (in_progress [linestring_session] 0)
  | call_linestring_add_location _, in_progress [linestring_session] _ =>
      Some p
  | call_linestring_finish, in_progress [linestring_session] _ =>
      Some finished
  | _, _ => None
  end.

(** The calls that build a multipolygon, in the only order allowed:
    [multipolygon_start], once and first; then rings one after the other,
    each a ring start, any number of [multipolygon_add_location] and the
    ring finish of the same kind; [multipolygon_finish], once and last,
    with no ring open and at least one ring closed.  Any other call, or
    one of these at another time, gives [None]. *)
Definition multipolygon_step (p : Progress) (c : Call) : option Progress :=
  match c, p with
  | call_multipolygon_start, not_started =>
      Some (in_progress [multipolygon_session] 0)
  | call_multipolygon_outer_ring_start, in_progress [multipolygon_session] n =>
      Some (in_progress [outer_ring_session; multipolygon_session] n)
  | call_multipolygon_inner_ring_start, in_progress [multipolygon_session] n =>
      Some (in_progress [inner_ring_session; multipolygon_session] n)
  | call_multipolygon_add_location _,
    in_progress [outer_ring_session; multipolygon_session] _ =>
      Some p
  | call_multipolygon_add_location _,
    in_progress [inner_ring_session; multipolygon_session] _ =>
      Some p
  | call_multipolygon_outer_ring_finish,
    in_progress [outer_ring_session; multipolygon_session] n =>
      Some (in_progress [multipolygon_session] (S n))
  | call_multipolygon_inner_ring_finish,
    in_progress [inner_ring_session; multipolygon_session] n =>
      Some (in_progress [multipolygon_session] (S n))
  | call_multipolygon_finish, in_progress [multipolygon_session] (S _) =>
      Some finished
  | _, _ => None
  end.

(** Goes through a list of calls from the progress [p]: the progress
    reached, or [None] as soon as a call is out of order. *)
Fixpoint follow (step : Progress -> Call -> option Progress) (p : Progress)
  (cs : list Call) : option Progress :=
  match cs with
  | [] => Some p
  | c :: rest =>
      match step p c with
      | Some p' => follow step p' rest
      | None => None
      end
  end.

(** The kinds of the rings started in a list of calls, in order. *)
Fixpoint ring_starts (cs : list Call) : list item_type.t :=
  match cs with
  | [] => []
  | call_multipolygon_outer_ring_start :: rest => item_type.outer_ring :: ring_starts rest
  | call_multipolygon_inner_ring_start :: rest => item_type.inner_ring :: ring_starts rest
  | _ :: rest => ring_starts rest
  end.

End geom.

(* ================================================================== *)
(** * A concrete implementation class *)

(** Modelled from the spec: the concrete factories ([osmium/geom/geojson.hpp]
    and its siblings) are not among the sources.  [CoordFactory] follows
    the capability contract of the specification and returns the
    coordinates themselves where the GeoJSON factory prints them:

    - [make_point], [linestring_add_location] and
      [multipolygon_add_location] throw [invalid_location] on the
      undefined Location;
    - [linestring_finish] throws [geometry_error] with fewer than two
      points (the tests on the empty way and on two equal nodes);
    - an outer ring begins a new polygon, an inner ring is added to the
      polygon begun last. *)
Module CoordFactory.

Import geom.

Record t : Type := mk {
  points : list Location;
  polygons : list (list (list Location))
}.

Definition fresh : t := mk [] [].

(** Changes the last element of a list. *)
Definition on_last {A : Type} (f : A -> A) (l : list A) : list A :=
  match rev l with
  | [] => []
  | x :: before => rev before ++ [f x]
  end.

Definition checked (l : Location) : M t unit :=
  if defined l then ret tt else throw (invalid_location "invalid location"%string).

Definition make_point (l : Location) : M t Location :=
  checked l ;; ret l.

Definition linestring_start : M t unit :=
  fun s => (Ok tt, mk [] (polygons s)).

Definition linestring_add_location (l : Location) : M t unit :=
  checked l ;; fun s => (Ok tt, mk (points s ++ [l]) (polygons s)).

Definition linestring_finish : M t (list Location) :=
  fun s =>
    if (length (points s) <? 2)%nat then
      (Throw (geometry_error "not enough points for linestring"%string), mk [] (polygons s))
    else
      (Ok (points s), mk [] (polygons s)).

Definition multipolygon_start : M t unit :=
  fun s => (Ok tt, mk (points s) []).

Definition multipolygon_outer_ring_start : M t unit :=
  fun s => (Ok tt, mk (points s) (polygons s ++ [[[]]])).

Definition multipolygon_inner_ring_start : M t unit :=
  fun s => (Ok tt, mk (points s) (on_last (fun polygon => polygon ++ [[]]) (polygons s))).

Definition multipolygon_ring_finish : M t unit :=
  ret tt.

Definition multipolygon_add_location (l : Location) : M t unit :=
  checked l ;;
  fun s => (Ok tt, mk (points s) (on_last (on_last (fun ring => ring ++ [l])) (polygons s))).

Definition multipolygon_finish : M t (list (list (list Location))) :=
  fun s => (Ok (polygons s), mk (points s) []).

#[global] Instance impl : GeometryImpl t := {|
  geom.point_type := Location;
  geom.linestring_type := list Location;
  geom.multipolygon_type := list (list (list Location));
  geom.make_point := make_point;
  geom.linestring_start := linestring_start;
  geom.linestring_add_location := linestring_add_location;
  geom.linestring_finish := linestring_finish;
  geom.multipolygon_start := multipolygon_start;
  geom.multipolygon_outer_ring_start := multipolygon_outer_ring_start;
  geom.multipolygon_outer_ring_finish := multipolygon_ring_finish;
  geom.multipolygon_inner_ring_start := multipolygon_inner_ring_start;
  geom.multipolygon_inner_ring_finish := multipolygon_ring_finish;
  geom.multipolygon_add_location := multipolygon_add_location;
  geom.multipolygon_finish := multipolygon_finish
|}.

End CoordFactory.

(* ================================================================== *)
(** * osmium/diff_visitor.hpp *)

Module diff.

(** Modelled from the spec: [osmium/osm/diff_object.hpp] is not among the
    sources.  A DiffObject has a kind tag, [diff.type()], and a previous
    and a current revision of one entity, which the dispatcher hands on
    and never looks into; the revisions are kept as version numbers. *)
Record DiffObject : Type := mkDiffObject {
  type : item_type.t;
  prev : Z;
  curr : Z
}.

(** [static_cast<const osmium::DiffNode&>(diff)] and its siblings give
    another view on the same object. *)
Definition DiffNode : Type := DiffObject.
Definition DiffWay : Type := DiffObject.
Definition DiffRelation : Type := DiffObject.

(** A handler, [THandler& handler]: the three member functions the
    dispatcher calls.  [W] is the state of the handler objects of one
    [apply_diff] call taken together, so that handlers may share state as
    C++ objects passed by reference may. *)
Record Handler (W : Type) : Type := mkHandler {
  node : DiffNode -> M W unit;
  way : DiffWay -> M W unit;
  relation : DiffRelation -> M W unit
}.

Arguments mkHandler {W} node way relation.
Arguments node {W} h d.
Arguments way {W} h d.
Arguments relation {W} h d.

Section apply_diff.

Context {W : Type}.

(** [detail::apply_diff_iterator_recurse(diff, handler)]. *)
Definition apply_diff_iterator_recurse1 (diff : DiffObject) (handler : Handler W) : M W unit :=
  match type diff with
  | item_type.node => node handler diff
  | item_type.way => way handler diff
  | item_type.relation => relation handler diff
  | _ => throw (runtime_error "unknown type"%string)
  end.

(** [detail::apply_diff_iterator_recurse(diff, handler, more...)].  The
    overload for one handler is the more specialised one, so it is the
    one chosen when the pack [more] is empty; there is no overload for no
    handler at all. *)
Fixpoint apply_diff_iterator_recurse (diff : DiffObject) (handler : Handler W)
  (more : list (Handler W)) : M W unit :=
  match more with
  | [] => apply_diff_iterator_recurse1 diff handler
  | next :: rest =>
      apply_diff_iterator_recurse1 diff handler ;;
      apply_diff_iterator_recurse diff next rest
  end.

(** The loop [for (; dit != dend; ++dit)] over what the DiffIterator
    produces. *)
Fixpoint apply_diff_loop (dits : list DiffObject) (handler : Handler W)
  (more : list (Handler W)) : M W unit :=
  match dits with
  | [] => ret tt
  | dit :: rest =>
      apply_diff_iterator_recurse dit handler more ;;
      apply_diff_loop rest handler more
  end.

(** [apply_diff(it, end, handlers...)].  [osmium::DiffIterator], the
    merge of the revisions in [it .. end] into DiffObjects, is not among
    the sources: it is the parameter [DiffIterator], a function from the
    range to the sequence of DiffObjects the iteration gives. *)
Definition apply_diff {TItem : Type} (DiffIterator : list TItem -> list DiffObject)
  (range : list TItem) (handler : Handler W) (more : list (Handler W)) : M W unit :=
  apply_diff_loop (DiffIterator range) handler more.

(** [apply_diff(source, handlers...)] and [apply_diff(buffer, handlers...)]
    pass the whole of the source or buffer on as a range. *)
Definition apply_diff_source {TItem : Type} (DiffIterator : list TItem -> list DiffObject)
  (source : list TItem) (handler : Handler W) (more : list (Handler W)) : M W unit :=
  apply_diff DiffIterator source handler more.

Definition apply_diff_buffer {TItem : Type} (DiffIterator : list TItem -> list DiffObject)
  (buffer : list TItem) (handler : Handler W) (more : list (Handler W)) : M W unit :=
  apply_diff DiffIterator buffer handler more.

End apply_diff.

(* ------------------------------------------------------------------ *)
(** ** Observing the callbacks *)

Inductive Callback : Type :=
| node_callback
| way_callback
| relation_callback.

(** One call of a handler member function: which handler, counted from 0
    in the order of the argument list, which member function, and the
    DiffObject passed. *)
Record Invocation : Type := mkInvocation {
  handler_index : nat;
  callback : Callback;
  argument : DiffObject
}.

Definition noted {W A : Type} (i : Invocation) (m : M W A) : M (list Invocation * W) A :=
  fun s =>
    match m (snd s) with
    | (r, w') => (r, (fst s ++ [i], w'))
    end.

(** The handler [h], registered at position [i], with every callback
    noted in a log. *)
Definition observed {W : Type} (i : nat) (h : Handler W) : Handler (list Invocation * W) :=
  mkHandler
    (fun d => noted (mkInvocation i node_callback d) (node h d))
    (fun d => noted (mkInvocation i way_callback d) (way h d))
    (fun d => noted (mkInvocation i relation_callback d) (relation h d)).

Fixpoint observed_from {W : Type} (i : nat) (hs : list (Handler W))
  : list (Handler (list Invocation * W)) :=
  match hs with
  | [] => []
  | h :: rest => observed i h :: observed_from (S i) rest
  end.

(** The callbacks one [apply_diff] call makes, in order, and how the
    call exits. *)
Definition callbacks_of {W TItem : Type} (DiffIterator : list TItem -> list DiffObject)
  (range : list TItem) (handler : Handler W) (more : list (Handler W)) (w : W)
  : list Invocation :=
  fst (snd (apply_diff DiffIterator range (observed 0 handler) (observed_from 1 more) ([], w))).

Definition exit_of {W TItem : Type} (DiffIterator : list TItem -> list DiffObject)
  (range : list TItem) (handler : Handler W) (more : list (Handler W)) (w : W)
  : outcome unit :=
  fst (apply_diff DiffIterator range (observed 0 handler) (observed_from 1 more) ([], w)).

(** The kind tags of the closed set and the callback of each. *)
Definition callback_for (k : item_type.t) : option Callback :=
  match k with
  | item_type.node => Some node_callback
  | item_type.way => Some way_callback
  | item_type.relation => Some relation_callback
  | _ => None
  end.

Definition legal (d : DiffObject) : bool :=
  match callback_for (type d) with
  | Some _ => true
  | None => false
  end.

(** The callback of a DiffObject of legal kind ([node_callback] stands in
    where there is none). *)
Definition callback_of (d : DiffObject) : Callback :=
  match callback_for (type d) with
  | Some c => c
  | None => node_callback
  end.

(** The log the specification asks for: for each DiffObject in turn,
    one invocation per handler, in the order of registration. *)
Definition expected_callbacks (n : nat) (dits : list DiffObject) : list Invocation :=
  flat_map (fun d => map (fun i => mkInvocation i (callback_of d) d) (seq 0 n)) dits.

(** The dispatch of one DiffObject to the handlers of a list, one after
    the other, up to the first that throws; the list may be empty. *)
Fixpoint dispatch_each {W : Type} (diff : DiffObject) (handlers : list (Handler W))
  : M W unit :=
  match handlers with
  | [] => ret tt
  | h :: rest => apply_diff_iterator_recurse1 diff h ;; dispatch_each diff rest
  end.

(** A handler none of whose callbacks throws. *)
Definition never_throws {W : Type} (h : Handler W) : Prop :=
  forall (d : DiffObject) (w : W),
    returns (fst (node h d w)) = true /\
    returns (fst (way h d w)) = true /\
    returns (fst (relation h d w)) = true.

End diff.

(* ================================================================== *)
(** * Data of the tests *)

(** The entities of [test/t/geom/test_geojson.cpp], coordinates times
    ten. *)
Module testdata.

Import geom.

(** The way of [BOOST_AUTO_TEST_CASE(linestring)]. *)
Definition wnl : WayNodeList :=
  [ mkNodeRef 1 (coordinates 32 42);
    mkNodeRef 3 (coordinates 35 47);
    mkNodeRef 4 (coordinates 35 47);
    mkNodeRef 2 (coordinates 36 49) ].

(** The way of [linestring_with_undefined_location]. *)
Definition wnl_undefined_last : WayNodeList :=
  [ mkNodeRef 1 (coordinates 35 47);
    mkNodeRef 2 undefined ].

(** The same kind of way with the undefined Location in front. *)
Definition wnl_undefined_first : WayNodeList :=
  [ mkNodeRef 2 undefined;
    mkNodeRef 1 (coordinates 32 42);
    mkNodeRef 3 (coordinates 35 47) ].

(** The outer ring of [area_1outer_0inner]: closed, first point repeated
    at the end. *)
Definition ring : OuterRing :=
  [ mkNodeRef 1 (coordinates 32 42);
    mkNodeRef 2 (coordinates 35 47);
    mkNodeRef 3 (coordinates 36 49);
    mkNodeRef 1 (coordinates 32 42) ].

Definition inner : OuterRing :=
  [ mkNodeRef 5 (coordinates 33 44);
    mkNodeRef 6 (coordinates 34 45);
    mkNodeRef 7 (coordinates 34 46);
    mkNodeRef 5 (coordinates 33 44) ].

Definition area_1outer_0inner : Area :=
  [ mkItem (item_type.other 17) []; mkItem item_type.outer_ring ring ].

Definition area_1outer_1inner : Area :=
  [ mkItem item_type.outer_ring ring; mkItem item_type.inner_ring inner ].

(** An Area with a tag list and nothing else. *)
Definition area_no_rings : Area :=
  [ mkItem (item_type.other 17) [] ].

(** Two handlers that share a counter of the callbacks made, and three
    DiffObjects, one of each kind. *)
Definition counting : diff.Handler nat :=
  diff.mkHandler
    (fun _ w => (Ok tt, S w))
    (fun _ w => (Ok tt, S w))
    (fun _ w => (Ok tt, S w)).

Definition diffs : list diff.DiffObject :=
  [ diff.mkDiffObject item_type.node 1 2;
    diff.mkDiffObject item_type.way 1 1;
    diff.mkDiffObject item_type.relation 3 4 ].

(** A DiffObject with a tag outside the three kinds. *)
Definition unknown_diff : diff.DiffObject :=
  diff.mkDiffObject (item_type.other 4) 1 2.

(** A DiffIterator over a range that holds the DiffObjects
    themselves. *)
Definition as_given (range : list diff.DiffObject) : list diff.DiffObject := range.

(** The way of [linestring_with_two_same_locations]. *)
Definition wnl_two_same : WayNodeList :=
  [ mkNodeRef 1 (coordinates 35 47);
    mkNodeRef 2 (coordinates 35 47) ].

(** A handler whose [way] callback throws; its other callbacks count. *)
Definition failing_on_way : diff.Handler nat :=
  diff.mkHandler
    (fun _ w => (Ok tt, S w))
    (fun _ w => (Throw (runtime_error "way refused"%string), w))
    (fun _ w => (Ok tt, S w)).

End testdata.

(* ================================================================== *)
(** * Properties *)

(** ** The monad *)

Lemma bind_ok {S A B : Type} (m : M S A) (k : A -> M S B) (s s' : S) (a : A) :
  m s = (Ok a, s') -> bind m k s = k a s'.
Proof. intros E. unfold bind. now rewrite E. Qed.

Lemma bind_throw {S A B : Type} (m : M S A) (k : A -> M S B) (s s' : S) (e : exn) :
  m s = (Throw e, s') -> bind m k s = (Throw e, s').
Proof. intros E. unfold bind. now rewrite E. Qed.

Lemma bind_assoc {S A B C : Type} (m : M S A) (f : A -> M S B) (g : B -> M S C) (s : S) :
  bind (bind m f) g s = bind m (fun a => bind (f a) g) s.
Proof. unfold bind. destruct (m s) as [[a | e] s']; reflexivity. Qed.

Lemma bind_ret_tt {S : Type} (m : M S unit) (s : S) :
  bind m (fun _ => ret tt) s = m s.
Proof. unfold bind, ret. destruct (m s) as [[[] | e] s']; reflexivity. Qed.

(** Two continuations that agree give the same computation. *)
Lemma bind_ext {S A B : Type} (m : M S A) (k k' : A -> M S B) (s : S) :
  (forall a s', k a s' = k' a s') -> bind m k s = bind m k' s.
Proof. intros E. unfold bind. destruct (m s) as [[a | e] s']; auto. Qed.

Lemma bind_ext_l {S A B : Type} (m m' : M S A) (k : A -> M S B) (s : S) :
  m s = m' s -> bind m k s = bind m' k s.
Proof. intros E. unfold bind. now rewrite E. Qed.

(** ** Locations *)

Lemma Location_eqb_eq (a b : Location) : Location_eqb a b = true <-> a = b.
Proof.
  destruct a as [| x1 y1], b as [| x2 y2]; simpl; split; intros E;
    try reflexivity; try discriminate.
  - apply andb_true_iff in E. destruct E as [Ex Ey].
    apply Z.eqb_eq in Ex. apply Z.eqb_eq in Ey. now subst.
  - injection E as -> ->. now rewrite !Z.eqb_refl.
Qed.

Lemma Location_neq_refl (a : Location) : Location_neq a a = false.
Proof.
  unfold Location_neq. now rewrite (proj2 (Location_eqb_eq a a) eq_refl).
Qed.

Lemma Location_neq_false (a b : Location) : Location_neq a b = false <-> a = b.
Proof.
  unfold Location_neq. rewrite negb_false_iff. apply Location_eqb_eq.
Qed.

Lemma Location_neq_true (a b : Location) : Location_neq a b = true <-> a <> b.
Proof.
  unfold Location_neq. rewrite negb_true_iff. split.
  - intros E ->. rewrite (proj2 (Location_eqb_eq b b) eq_refl) in E. discriminate.
  - intros N. destruct (Location_eqb a b) eqn:E; [| reflexivity].
    apply Location_eqb_eq in E. contradiction.
Qed.

Lemma Location_neq_sym (a b : Location) : Location_neq a b = Location_neq b a.
Proof.
  destruct (Location_neq b a) eqn:E.
  - apply Location_neq_true. apply Location_neq_true in E. congruence.
  - apply Location_neq_false. apply Location_neq_false in E. congruence.
Qed.

Lemma Location_neq_undefined (l : Location) : Location_neq undefined l = defined l.
Proof. now destruct l. Qed.

(** ** The index of the backward loops *)

Lemma start_index_fits (wnl : WayNodeList) :
  geom.fits_int wnl -> geom.start_index wnl = (Z.of_nat (length wnl) - 1)%Z.
Proof.
  unfold geom.fits_int, INT_MAX, geom.start_index, int_wrap, size_t_wrap. intros F.
  destruct (length wnl) as [| n].
  - reflexivity.
  - replace (Z.of_nat (S n) - 1)%Z with (Z.of_nat n) in * by lia.
    rewrite (Z.mod_small (Z.of_nat n)) by lia.
    rewrite Z.mod_small by lia. lia.
Qed.

Lemma iterations_fits (wnl : WayNodeList) :
  geom.fits_int wnl -> geom.iterations (geom.start_index wnl) = length wnl.
Proof.
  intros F. unfold geom.iterations. rewrite start_index_fits by assumption. lia.
Qed.

(** The backward loops never index past the end, whatever the size. *)
Lemma index_in_range (wnl : WayNodeList) :
  (geom.iterations (geom.start_index wnl) <= length wnl)%nat.
Proof.
  unfold geom.iterations, geom.start_index, int_wrap, size_t_wrap.
  destruct (length wnl) as [| n].
  - simpl. lia.
  - replace (Z.of_nat (S n) - 1)%Z with (Z.of_nat n) by lia.
    assert (B64 : (0 <= Z.of_nat n mod 2 ^ 64 <= Z.of_nat n)%Z).
    { split; [apply Z.mod_pos_bound; lia | apply Z.mod_le; lia]. }
    set (a := (Z.of_nat n mod 2 ^ 64)%Z) in *.
    assert (B32 : (0 <= (a + 2 ^ 31) mod 2 ^ 32 <= a + 2 ^ 31)%Z).
    { split; [apply Z.mod_pos_bound; lia | apply Z.mod_le; lia]. }
    lia.
Qed.

(** ** The loops as lists of calls *)

Import geom.

Lemma firstn_succ_at_index (wnl : WayNodeList) (i : nat) :
  (i < length wnl)%nat -> firstn (S i) wnl = firstn i wnl ++ [at_index wnl i].
Proof.
  revert i. induction wnl as [| n wnl IH]; intros i L; simpl in L.
  - lia.
  - destruct i as [| i].
    + reflexivity.
    + change (firstn (S (S i)) (n :: wnl)) with (n :: firstn (S i) wnl).
      rewrite IH by lia. reflexivity.
Qed.

Lemma rev_firstn_succ (wnl : WayNodeList) (i : nat) :
  (i < length wnl)%nat ->
  rev (firstn (S i) wnl) = at_index wnl i :: rev (firstn i wnl).
Proof.
  intros L. rewrite firstn_succ_at_index by assumption.
  now rewrite rev_app_distr.
Qed.

Lemma visited_backward (wnl : WayNodeList) :
  fits_int wnl -> visited backward wnl = rev wnl.
Proof.
  intros F. unfold visited. rewrite iterations_fits by assumption.
  now rewrite firstn_all.
Qed.

Section Scripts.

Context {G : Type} {impl : GeometryImpl G}.

Lemma run_calls_app (a b : list Call) (g : G) :
  run_calls (a ++ b) g = bind (run_calls a) (fun _ => run_calls b) g.
Proof.
  revert g. induction a as [| c a IH]; intros g; simpl.
  - reflexivity.
  - rewrite bind_assoc. apply bind_ext. intros _ g'. apply IH.
Qed.

Lemma unique_forward_loop_script (wnl : WayNodeList) (last_location : Location) (g : G) :
  unique_forward_loop last_location wnl g
  = run_calls (map call_linestring_add_location (collapse last_location (map location wnl))) g.
Proof.
  revert last_location g. induction wnl as [| wn wnl IH]; intros last_location g; simpl.
  - reflexivity.
  - destruct (Location_neq last_location (location wn)) eqn:E; simpl.
    + apply bind_ext. intros _ g'. apply IH.
    + apply Location_neq_false in E. rewrite <- E. apply IH.
Qed.

Lemma unique_backward_loop_forward (wnl : WayNodeList) (k : nat) (last_location : Location) (g : G) :
  (k <= length wnl)%nat ->
  unique_backward_loop wnl last_location k g
  = unique_forward_loop last_location (rev (firstn k wnl)) g.
Proof.
  revert last_location g. induction k as [| i IH]; intros last_location g L.
  - reflexivity.
  - rewrite rev_firstn_succ by lia. simpl.
    destruct (Location_neq last_location (location (at_index wnl i))).
    + apply bind_ext. intros _ g'. apply IH. lia.
    + apply IH. lia.
Qed.

Lemma all_forward_loop_script (wnl : WayNodeList) (g : G) :
  all_forward_loop wnl g
  = run_calls (map call_linestring_add_location (map location wnl)) g.
Proof.
  revert g. induction wnl as [| wn wnl IH]; intros g; simpl.
  - reflexivity.
  - apply bind_ext. intros _ g'. apply IH.
Qed.

Lemma all_backward_loop_forward (wnl : WayNodeList) (k : nat) (g : G) :
  (k <= length wnl)%nat ->
  all_backward_loop wnl k g = all_forward_loop (rev (firstn k wnl)) g.
Proof.
  revert g. induction k as [| i IH]; intros g L.
  - reflexivity.
  - rewrite rev_firstn_succ by lia. simpl.
    apply bind_ext. intros _ g'. apply IH. lia.
Qed.

(** [create_linestring] makes the calls of [linestring_script], one
    after the other, and returns what the last of them,
    [linestring_finish], returns. *)
Lemma create_linestring_script (wnl : WayNodeList) (un : use_nodes) (dir : direction) (g : G) :
  create_linestring wnl un dir g
  = bind (run_calls (call_linestring_start
                       :: map call_linestring_add_location (linestring_locations wnl un dir)))
         (fun _ => linestring_finish) g.
Proof.
  unfold create_linestring, linestring_locations. simpl run_calls.
  rewrite !bind_assoc. apply bind_ext. intros _ g'.
  pose proof (index_in_range wnl) as R.
  destruct un, dir; simpl visited.
  all: apply bind_ext_l.
  - rewrite unique_backward_loop_forward by assumption.
    apply unique_forward_loop_script.
  - apply unique_forward_loop_script.
  - rewrite all_backward_loop_forward by assumption.
    apply all_forward_loop_script.
  - apply all_forward_loop_script.
Qed.

Lemma add_points_loop_script (nodes : OuterRing) (last_location : Location) (g : G) :
  add_points_loop last_location nodes g
  = run_calls (map call_multipolygon_add_location (collapse last_location (map location nodes))) g.
Proof.
  revert last_location g. induction nodes as [| n nodes IH]; intros last_location g; simpl.
  - reflexivity.
  - destruct (Location_neq last_location (location n)) eqn:E; simpl.
    + apply bind_ext. intros _ g'. apply IH.
    + apply Location_neq_false in E. rewrite <- E. apply IH.
Qed.

Lemma add_points_script (nodes : OuterRing) (g : G) :
  add_points nodes g
  = run_calls (map call_multipolygon_add_location (ring_locations nodes)) g.
Proof. apply add_points_loop_script. Qed.

Lemma count_rings_cons (it : Item) (area : Area) :
  count_rings (it :: area)
  = if is_ring it then S (count_rings area) else count_rings area.
Proof. unfold count_rings. simpl. now destruct (is_ring it). Qed.

(** One ring of the loop of [create_multipolygon]. *)
Lemma ring_script_run (start finish : Call) (ring : OuterRing) (rest : list Call)
  (k : M G Z) (g : G) :
  bind (perform start)
       (fun _ => bind (add_points ring)
                      (fun _ => bind (perform finish)
                                     (fun _ => bind (run_calls rest) (fun _ => k)))) g
  = bind (run_calls
            ((start :: map call_multipolygon_add_location (ring_locations ring) ++ [finish])
               ++ rest))
         (fun _ => k) g.
Proof.
  simpl run_calls. rewrite bind_assoc. apply bind_ext. intros _ g1.
  rewrite <- app_assoc.
  rewrite (bind_ext_l _ _ _ _ (run_calls_app _ _ g1)), bind_assoc.
  rewrite (bind_ext_l _ _ _ _ (add_points_script ring g1)).
  apply bind_ext. intros _ g2. simpl. rewrite bind_assoc. reflexivity.
Qed.

Lemma rings_loop_script (items : list Item) (num_rings : Z) (g : G) :
  rings_loop num_rings items g
  = bind (run_calls (rings_script items))
         (fun _ => ret (Nat.iter (count_rings items) incr num_rings)) g.
Proof.
  revert num_rings g. induction items as [| it items IH]; intros num_rings g.
  - reflexivity.
  - rewrite count_rings_cons. unfold rings_script, is_ring, item_script.
    simpl. fold (rings_script items).
    destruct (type it); try apply IH.
    + rewrite Nat.iter_succ_r.
      rewrite <- (ring_script_run call_multipolygon_outer_ring_start
                    call_multipolygon_outer_ring_finish).
      simpl perform. do 3 (apply bind_ext; intros _ ?). apply IH.
    + rewrite Nat.iter_succ_r.
      rewrite <- (ring_script_run call_multipolygon_inner_ring_start
                    call_multipolygon_inner_ring_finish).
      simpl perform. do 3 (apply bind_ext; intros _ ?). apply IH.
Qed.

(** [create_multipolygon] makes the calls of the rings one after the
    other and then, by the count of the rings, throws or returns what
    [multipolygon_finish] returns. *)
Lemma create_multipolygon_script (area : Area) (g : G) :
  create_multipolygon area g
  = bind (run_calls (call_multipolygon_start :: rings_script area))
         (fun _ => if (final_count area =? 0)%Z
                   then throw (geometry_error "invalid area"%string)
                   else multipolygon_finish) g.
Proof.
  unfold create_multipolygon, final_count. simpl run_calls.
  rewrite bind_assoc. apply bind_ext. intros _ g1.
  rewrite (bind_ext_l _ _ _ _ (rings_loop_script area 0%Z g1)).
  rewrite bind_assoc. apply bind_ext. intros _ g2. reflexivity.
Qed.

End Scripts.

(** ** The log of the calls *)

Section Logged.

Context {G : Type} {impl : GeometryImpl G}.

Lemma logged_run {A : Type} (c : Call) (m : M G A) (log : list Call) (g : G) :
  logged c m (log, g) = (fst (m g), (log ++ [c], snd (m g))).
Proof. unfold logged. simpl. now destruct (m g). Qed.

Lemma perform_logged (c : Call) (log : list Call) (g : G) :
  perform (impl := Logging impl) c (log, g)
  = (fst (perform c g), (log ++ [c], snd (perform c g))).
Proof.
  destruct c; simpl; try apply logged_run;
    unfold bind; rewrite logged_run;
    match goal with |- context [?m g] => destruct (m g) as [[a | e] g'] end;
    reflexivity.
Qed.

Lemma attempted_single (c : Call) (g : G) : attempted [c] g = [c].
Proof. simpl. now destruct (perform c g) as [[[] | e] g']. Qed.

Lemma attempted_app (a b : list Call) (g : G) :
  attempted (a ++ b) g
  = attempted a g
      ++ (if returns (fst (run_calls a g)) then attempted b (snd (run_calls a g)) else []).
Proof.
  revert g. induction a as [| c a IH]; intros g; simpl.
  - reflexivity.
  - unfold bind. destruct (perform c g) as [[[] | e] g']; simpl.
    + now rewrite IH.
    + reflexivity.
Qed.

Lemma attempted_prefix (cs : list Call) (g : G) :
  exists rest, cs = attempted cs g ++ rest.
Proof.
  revert g. induction cs as [| c cs IH]; intros g; simpl.
  - now exists [].
  - destruct (perform c g) as [[[] | e] g'].
    + destruct (IH g') as [rest E]. exists rest. simpl. now rewrite <- E.
    + now exists cs.
Qed.

Lemma attempted_returns (cs : list Call) (g : G) :
  returns (fst (run_calls cs g)) = true -> attempted cs g = cs.
Proof.
  revert g. induction cs as [| c cs IH]; intros g; simpl.
  - reflexivity.
  - unfold bind. destruct (perform c g) as [[[] | e] g']; simpl.
    + intros R. now rewrite IH.
    + discriminate.
Qed.

Lemma attempted_not_nil (c : Call) (cs : list Call) (g : G) :
  exists more, attempted (c :: cs) g = c :: more.
Proof.
  simpl. destruct (perform c g) as [[[] | e] g']; eauto.
Qed.

Lemma run_calls_logged (cs : list Call) (log : list Call) (g : G) :
  run_calls (impl := Logging impl) cs (log, g)
  = (fst (run_calls cs g), (log ++ attempted cs g, snd (run_calls cs g))).
Proof.
  revert log g. induction cs as [| c cs IH]; intros log g; simpl.
  - now rewrite app_nil_r.
  - unfold bind. rewrite perform_logged.
    destruct (perform c g) as [[[] | e] g']; simpl.
    + rewrite IH. now rewrite <- app_assoc.
    + reflexivity.
Qed.

(** On the logging implementation [create_linestring] exits as on the
    implementation itself, and the log gains the calls of
    [linestring_script] up to the first that throws. *)
Lemma create_linestring_logged (wnl : WayNodeList) (un : use_nodes) (dir : direction)
  (log : list Call) (g : G) :
  create_linestring (impl := Logging impl) wnl un dir (log, g)
  = (fst (create_linestring wnl un dir g),
     (log ++ attempted (linestring_script wnl un dir) g,
      snd (create_linestring wnl un dir g))).
Proof.
  rewrite !create_linestring_script. unfold linestring_script.
  rewrite app_comm_cons, attempted_app.
  unfold bind. rewrite run_calls_logged.
  destruct (run_calls _ g) as [[[] | e] g1]; simpl returns; cbv iota.
  - simpl fst; simpl snd. rewrite attempted_single.
    change (@linestring_finish _ (Logging impl))
      with (logged call_linestring_finish (@linestring_finish _ impl)).
    rewrite logged_run. now rewrite <- app_assoc.
  - simpl. now rewrite app_nil_r.
Qed.

Lemma create_multipolygon_logged (area : Area) (log : list Call) (g : G) :
  create_multipolygon (impl := Logging impl) area (log, g)
  = (fst (create_multipolygon area g),
     (log ++ attempted (multipolygon_script area) g,
      snd (create_multipolygon area g))).
Proof.
  rewrite !create_multipolygon_script. unfold multipolygon_script.
  rewrite attempted_app.
  unfold bind. rewrite run_calls_logged.
  destruct (run_calls _ g) as [[[] | e] g1]; simpl returns; cbv iota.
  - simpl fst; simpl snd. destruct (final_count area =? 0)%Z.
    + unfold throw. simpl. now rewrite app_nil_r.
    + rewrite attempted_single.
      change (@multipolygon_finish _ (Logging impl))
        with (logged call_multipolygon_finish (@multipolygon_finish _ impl)).
      rewrite logged_run. now rewrite <- app_assoc.
  - simpl. now rewrite app_nil_r.
Qed.

Lemma add_points_logged (ring : OuterRing) (log : list Call) (g : G) :
  add_points (impl := Logging impl) ring (log, g)
  = (fst (add_points ring g),
     (log ++ attempted (map call_multipolygon_add_location (ring_locations ring)) g,
      snd (add_points ring g))).
Proof.
  rewrite !add_points_script. apply run_calls_logged.
Qed.

Lemma calls_of_create_linestring (wnl : WayNodeList) (un : use_nodes) (dir : direction) (g : G) :
  calls_of (create_linestring wnl un dir) g = attempted (linestring_script wnl un dir) g.
Proof. unfold calls_of. now rewrite create_linestring_logged. Qed.

Lemma exit_of_create_linestring (wnl : WayNodeList) (un : use_nodes) (dir : direction) (g : G) :
  exit_of (create_linestring wnl un dir) g = fst (create_linestring wnl un dir g).
Proof. unfold exit_of. now rewrite create_linestring_logged. Qed.

Lemma calls_of_create_multipolygon (area : Area) (g : G) :
  calls_of (create_multipolygon area) g = attempted (multipolygon_script area) g.
Proof. unfold calls_of. now rewrite create_multipolygon_logged. Qed.

Lemma exit_of_create_multipolygon (area : Area) (g : G) :
  exit_of (create_multipolygon area) g = fst (create_multipolygon area g).
Proof. unfold exit_of. now rewrite create_multipolygon_logged. Qed.

Lemma calls_of_add_points (ring : OuterRing) (g : G) :
  calls_of (add_points ring) g
  = attempted (map call_multipolygon_add_location (ring_locations ring)) g.
Proof. unfold calls_of. now rewrite add_points_logged. Qed.

End Logged.

(** ** Collapsing consecutive duplicates *)

Lemma collapse_keep_changes (ls : list Location) (last : Location) :
  collapse last ls = keep_changes last ls.
Proof.
  revert last. induction ls as [| l ls IH]; intros last.
  - reflexivity.
  - unfold keep_changes. simpl.
    destruct (Location_neq last l); simpl; now rewrite IH.
Qed.

Lemma no_consecutive_equal_cons (a b : Location) (ls : list Location) :
  no_consecutive_equal (a :: b :: ls)
  = Location_neq a b && no_consecutive_equal (b :: ls).
Proof. reflexivity. Qed.



(** What is kept never equals what is kept before it, nor does the first
    kept equal [last]. *)
Lemma collapse_no_consecutive_equal (ls : list Location) (last : Location) :
  no_consecutive_equal (last :: collapse last ls) = true.
Proof.
  revert last. induction ls as [| l ls IH]; intros last; simpl collapse.
  - reflexivity.
  - destruct (Location_neq last l) eqn:E.
    + rewrite no_consecutive_equal_cons, E. apply IH.
    + apply Location_neq_false in E. subst l. apply IH.
Qed.


Lemma last_cons (ls : list Location) (l d : Location) :
  List.last (l :: ls) d = List.last ls l.
Proof.
  revert l d. induction ls as [| x ls IH]; intros l d.
  - reflexivity.
  - change (List.last (l :: x :: ls) d) with (List.last (x :: ls) d).
    now rewrite (IH x d), (IH x l).
Qed.

Lemma collapse_snoc (ls : list Location) (last a : Location) :
  collapse last (ls ++ [a]) = collapse last ls ++ collapse (List.last ls last) [a].
Proof.
  revert last. induction ls as [| l ls IH]; intros last.
  - reflexivity.
  - rewrite last_cons. simpl app. simpl collapse at 1 2. rewrite IH.
    now destruct (Location_neq last l).
Qed.

Lemma last_rev_hd (ls : list Location) (d : Location) :
  List.last (rev ls) d = hd d ls.
Proof.
  destruct ls as [| l ls]; [reflexivity |].
  simpl. now rewrite last_last.
Qed.

(** Collapsing the reversed list gives the reversed collapsed list when
    neither end of the list takes part in the comparison with the initial
    value. *)
Lemma collapse_rev (ls : list Location) (p : Location) :
  forall q : Location,
    Location_neq q (hd p ls) = true ->
    Location_neq p (List.last ls q) = true ->
    collapse p (rev ls) = rev (collapse q ls).
Proof.
  induction ls as [| x ls IH]; intros q Hq Hp.
  - reflexivity.
  - simpl hd in Hq. simpl rev. rewrite collapse_snoc, last_rev_hd.
    simpl collapse at 3. rewrite Hq. simpl rev.
    destruct ls as [| y ls].
    + simpl in *. now rewrite Hp.
    + simpl hd.
      assert (Hp' : forall d, Location_neq p (List.last (y :: ls) d) = true).
      { intros d. rewrite <- Hp. now rewrite !last_cons. }
      destruct (Location_neq y x) eqn:E.
      * rewrite (IH x).
        -- simpl collapse at 2. now rewrite E.
        -- simpl. now rewrite Location_neq_sym.
        -- apply Hp'.
      * apply Location_neq_false in E. subst y.
        rewrite (IH q).
        -- simpl collapse. rewrite Hq, Location_neq_refl. simpl.
           now rewrite app_nil_r.
        -- exact Hq.
        -- apply Hp'.
Qed.

Lemma added_locations_app (a b : list Call) :
  added_locations (a ++ b) = added_locations a ++ added_locations b.
Proof.
  induction a as [| c a IH]; [reflexivity |].
  destruct c; simpl; now rewrite IH.
Qed.

Lemma added_locations_map (ls : list Location) :
  added_locations (map call_linestring_add_location ls) = ls.
Proof. induction ls as [| l ls IH]; simpl; now rewrite ?IH. Qed.

Lemma added_locations_script (wnl : WayNodeList) (un : use_nodes) (dir : direction) :
  added_locations (linestring_script wnl un dir) = linestring_locations wnl un dir.
Proof.
  unfold linestring_script. simpl.
  rewrite added_locations_app, added_locations_map. simpl. apply app_nil_r.
Qed.

(** ** create_linestring *)

Lemma returns_bind {S A B : Type} (m : M S A) (k : A -> M S B) (s : S) :
  returns (fst (bind m k s)) = true -> returns (fst (m s)) = true.
Proof. unfold bind. now destruct (m s) as [[a | e] s']. Qed.

Section Linestring.

Context {G : Type} {impl : GeometryImpl G}.

(** A call that returns has made all the calls of the script. *)
Lemma create_linestring_returns (wnl : WayNodeList) (un : use_nodes) (dir : direction) (g : G) :
  returns (fst (create_linestring wnl un dir g)) = true ->
  calls_of (create_linestring wnl un dir) g = linestring_script wnl un dir.
Proof.
  intros R. rewrite calls_of_create_linestring.
  rewrite create_linestring_script in R. apply returns_bind in R.
  unfold linestring_script. rewrite app_comm_cons, attempted_app, R.
  now rewrite attempted_returns, attempted_single.
Qed.

(** However the call exits, the Locations added are the first so many of
    [linestring_locations]. *)
Lemma create_linestring_added (wnl : WayNodeList) (un : use_nodes) (dir : direction) (g : G) :
  exists rest,
    linestring_locations wnl un dir
    = added_locations (calls_of (create_linestring wnl un dir) g) ++ rest.
Proof.
  rewrite calls_of_create_linestring.
  destruct (attempted_prefix (linestring_script wnl un dir) g) as [rest E].
  exists (added_locations rest).
  now rewrite <- added_locations_app, <- E, added_locations_script.
Qed.



End Linestring.


(** ** create_multipolygon *)





Section Multipolygon.

Context {G : Type} {impl : GeometryImpl G}.


(** A call that returns has counted a ring and made all the calls of the
    script, [multipolygon_finish] at the end. *)
Lemma create_multipolygon_returns (area : Area) (g : G) :
  returns (fst (create_multipolygon area g)) = true ->
  (final_count area =? 0)%Z = false
  /\ calls_of (create_multipolygon area) g
     = call_multipolygon_start :: rings_script area ++ [call_multipolygon_finish].
Proof.
  intros R. rewrite calls_of_create_multipolygon.
  rewrite create_multipolygon_script in R.
  pose proof (returns_bind _ _ _ R) as R1.
  unfold multipolygon_script. rewrite attempted_app, R1.
  rewrite (attempted_returns _ _ R1).
  unfold bind in R. destruct (run_calls _ g) as [[[] | e] g1]; [| discriminate].
  destruct (final_count area =? 0)%Z; [discriminate |].
  split; [reflexivity |]. simpl snd. now rewrite attempted_single.
Qed.


End Multipolygon.


(** ** The first node visited *)

Lemma fits_int_snoc (wnl : WayNodeList) (n : NodeRef) :
  fits_int (wnl ++ [n]) -> fits_int wnl.
Proof. unfold fits_int. rewrite length_app. simpl. lia. Qed.

Section FirstVisited.

Context {G : Type} {impl : GeometryImpl G}.

Lemma unique_forward_skips_undefined (n : NodeRef) (wnl : WayNodeList) (g : G) :
  location n = undefined ->
  create_linestring (n :: wnl) unique forward g = create_linestring wnl unique forward g.
Proof.
  intros U. unfold create_linestring. simpl. rewrite U. reflexivity.
Qed.

Lemma unique_backward_skips_undefined (n : NodeRef) (wnl : WayNodeList) (g : G) :
  location n = undefined ->
  fits_int (wnl ++ [n]) ->
  create_linestring (wnl ++ [n]) unique backward g = create_linestring wnl unique backward g.
Proof.
  intros U F. rewrite !create_linestring_script. unfold linestring_locations.
  rewrite !visited_backward by eauto using fits_int_snoc.
  rewrite rev_unit. simpl. rewrite U. reflexivity.
Qed.

Lemma add_points_skips_undefined (n : NodeRef) (ring : OuterRing) (g : G) :
  location n = undefined ->
  add_points (n :: ring) g = add_points ring g.
Proof.
  intros U. unfold add_points. simpl. rewrite U. reflexivity.
Qed.

End FirstVisited.

Lemma ring_item_skips_undefined (t : item_type.t) (n : NodeRef) (ring : OuterRing) :
  location n = undefined ->
  item_script (mkItem t (n :: ring)) = item_script (mkItem t ring).
Proof.
  intros U. unfold item_script, ring_locations. simpl. now rewrite U.
Qed.

Lemma create_multipolygon_skips_undefined {G : Type} {impl : GeometryImpl G}
  (t : item_type.t) (n : NodeRef) (ring : OuterRing) (before after : list Item) (g : G) :
  location n = undefined ->
  create_multipolygon (before ++ mkItem t (n :: ring) :: after) g
  = create_multipolygon (before ++ mkItem t ring :: after) g.
Proof.
  intros U. rewrite !create_multipolygon_script.
  assert (C : count_rings (before ++ mkItem t (n :: ring) :: after)
              = count_rings (before ++ mkItem t ring :: after)).
  { unfold count_rings. rewrite !filter_app, !length_app. simpl.
    unfold is_ring. simpl. now destruct t. }
  unfold final_count, rings_script. rewrite C, !flat_map_app. simpl.
  rewrite (@ring_item_skips_undefined t n ring U).
  reflexivity.
Qed.

(** C9.  The comparison of [create_linestring] with [use_nodes::unique]
    and of [add_points] starts from the undefined Location.  So when the
    node visited first (the first of the list, or the last when the
    direction is backward) has the undefined Location, the call makes
    the same calls on the implementation, leaves it in the same state and
    exits the same way as on the list without that node: the undefined
    Location of that node is not handed to the implementation, and
    nothing is thrown for it.  The same holds of [create_multipolygon]
    for the first node of any ring of the Area. *)
Theorem first_visited_undefined_is_skipped
  (G : Type) (impl : GeometryImpl G) (g : G) (n : NodeRef) (nodes : NodeRefList)
  (t : item_type.t) (before after : list Item) :
  location n = undefined ->
  (create_linestring (n :: nodes) unique forward g = create_linestring nodes unique forward g
   /\ calls_of (create_linestring (n :: nodes) unique forward) g
      = calls_of (create_linestring nodes unique forward) g)
  /\ (fits_int (nodes ++ [n]) ->
      create_linestring (nodes ++ [n]) unique backward g
      = create_linestring nodes unique backward g
      /\ calls_of (create_linestring (nodes ++ [n]) unique backward) g
         = calls_of (create_linestring nodes unique backward) g)
  /\ (add_points (n :: nodes) g = add_points nodes g
      /\ calls_of (add_points (n :: nodes)) g = calls_of (add_points nodes) g)
  /\ (create_multipolygon (before ++ mkItem t (n :: nodes) :: after) g
      = create_multipolygon (before ++ mkItem t nodes :: after) g
      /\ calls_of (create_multipolygon (before ++ mkItem t (n :: nodes) :: after)) g
         = calls_of (create_multipolygon (before ++ mkItem t nodes :: after)) g).
Proof.
  intros U. unfold calls_of. repeat split; intros;
    rewrite ?unique_forward_skips_undefined, ?unique_backward_skips_undefined,
      ?add_points_skips_undefined, ?(@create_multipolygon_skips_undefined _ _ t n nodes before after _ U)
      by assumption;
    reflexivity.
Qed.

(** The way of the tests with an undefined Location put in front gives
    the linestring of the other two nodes. *)
Lemma first_visited_undefined_is_skipped_witness :
  create_linestring testdata.wnl_undefined_first unique forward CoordFactory.fresh
  = (Ok [coordinates 32 42; coordinates 35 47], CoordFactory.fresh).
Proof.
  transitivity
    (create_linestring (tl testdata.wnl_undefined_first) unique forward CoordFactory.fresh).
  - apply (@first_visited_undefined_is_skipped _ CoordFactory.impl CoordFactory.fresh
             (mkNodeRef 2 undefined) (tl testdata.wnl_undefined_first)
             item_type.outer_ring [] []).
    reflexivity.
  - reflexivity.
Defined.

(** ** Items that are no rings *)

Lemma rings_script_filter (area : Area) :
  rings_script (filter is_ring area) = rings_script area.
Proof.
  unfold rings_script. induction area as [| it area IH]; simpl; [reflexivity |].
  destruct (is_ring it) eqn:E; simpl; rewrite IH; [reflexivity |].
  unfold is_ring in E. unfold item_script.
  destruct (type it); try discriminate; reflexivity.
Qed.

Lemma count_rings_filter (area : Area) :
  count_rings (filter is_ring area) = count_rings area.
Proof.
  unfold count_rings. f_equal. induction area as [| it area IH]; simpl; [reflexivity |].
  destruct (is_ring it) eqn:E; simpl; rewrite ?E, IH; reflexivity.
Qed.

Lemma filter_none (area : Area) :
  forallb (fun it => negb (is_ring it)) area = true -> filter is_ring area = [].
Proof.
  induction area as [| it area IH]; simpl; [reflexivity |].
  intros A. apply andb_true_iff in A. destruct A as [N A].
  apply negb_true_iff in N. rewrite N. auto.
Qed.

Section NoRings.

Context {G : Type} {impl : GeometryImpl G}.

Lemma create_multipolygon_filter (area : Area) (g : G) :
  create_multipolygon area g = create_multipolygon (filter is_ring area) g.
Proof.
  rewrite !create_multipolygon_script. unfold final_count.
  now rewrite rings_script_filter, count_rings_filter.
Qed.

Lemma create_multipolygon_empty (g g' : G) :
  multipolygon_start g = (Ok tt, g') ->
  create_multipolygon [] g = (Throw (geometry_error "invalid area"%string), g').
Proof.
  intros S. unfold create_multipolygon. rewrite (bind_ok _ _ _ S). reflexivity.
Qed.

End NoRings.

(** Without a ring the only call is [multipolygon_start]. *)
Lemma create_multipolygon_no_rings {G : Type} {impl : GeometryImpl G} (area : Area) (g : G) :
  forallb (fun it => negb (is_ring it)) area = true ->
  returns (fst (multipolygon_start g)) = true ->
  exit_of (create_multipolygon area) g = Throw (geometry_error "invalid area"%string)
  /\ calls_of (create_multipolygon area) g = [call_multipolygon_start].
Proof.
  intros N R. unfold exit_of, calls_of.
  rewrite create_multipolygon_filter, (filter_none _ N), create_multipolygon_logged.
  destruct (multipolygon_start g) as [[[] | e] g'] eqn:S; [| discriminate].
  rewrite (create_multipolygon_empty _ S).
  change (multipolygon_script []) with [call_multipolygon_start].
  rewrite attempted_single. split; reflexivity.
Qed.

(** C10.  An item of the Area that is neither an outer nor an inner
    ring is passed over: the loop goes on with [num_rings] as it was and
    makes no call for it.  So [create_multipolygon] does on an Area what
    it does on the rings of the Area alone (same exit, same state of the
    implementation, same calls); and on an Area without any ring what it
    does on the empty Area, which is to throw
    [geometry_error("invalid area")] once [multipolygon_start] has
    returned. *)
Theorem create_multipolygon_skips_other_items
  (G : Type) (impl : GeometryImpl G) (g : G) (area : Area) :
  (forall (it : Item) (num_rings : Z),
      is_ring it = false ->
      rings_loop num_rings (it :: area) g = rings_loop num_rings area g)
  /\ create_multipolygon area g = create_multipolygon (filter is_ring area) g
  /\ calls_of (create_multipolygon area) g
     = calls_of (create_multipolygon (filter is_ring area)) g
  /\ (forallb (fun it => negb (is_ring it)) area = true ->
      create_multipolygon area g = create_multipolygon [] g
      /\ (returns (fst (multipolygon_start g)) = true ->
          exit_of (create_multipolygon area) g
          = Throw (geometry_error "invalid area"%string)
          /\ calls_of (create_multipolygon area) g = [call_multipolygon_start])).
Proof.
  split; [| split; [| split]].
  - intros it num_rings N. unfold is_ring in N. simpl.
    destruct (type it); try discriminate; reflexivity.
  - apply create_multipolygon_filter.
  - unfold calls_of. now rewrite create_multipolygon_filter.
  - intros N. rewrite create_multipolygon_filter, (filter_none _ N).
    split; [reflexivity |]. intros R.
    now apply create_multipolygon_no_rings.
Qed.

(** An Area holding a tag list only. *)
Lemma create_multipolygon_skips_other_items_witness :
  exit_of (create_multipolygon testdata.area_no_rings) CoordFactory.fresh
  = Throw (geometry_error "invalid area"%string)
  /\ calls_of (create_multipolygon testdata.area_no_rings) CoordFactory.fresh
     = [call_multipolygon_start].
Proof.
  apply (create_multipolygon_skips_other_items CoordFactory.impl CoordFactory.fresh
           testdata.area_no_rings); reflexivity.
Defined.

(** ** Sessions *)

Lemma sessions_app (a b : list Call) (open : list Session) :
  sessions open (a ++ b)
  = match sessions open a with
    | Some open' => sessions open' b
    | None => None
    end.
Proof.
  revert open. induction a as [| c a IH]; intros open; simpl.
  - reflexivity.
  - destruct (opens c); [apply IH |].
    destruct (closes c); [| apply IH].
    destruct open as [| s' open]; [reflexivity |].
    destruct (Session_eqb s s'); [apply IH | reflexivity].
Qed.

Lemma sessions_linestring_adds (ls : list Location) (open : list Session) :
  sessions open (map call_linestring_add_location ls) = Some open.
Proof. induction ls as [| l ls IH]; simpl; [reflexivity | assumption]. Qed.

Lemma sessions_multipolygon_adds (ls : list Location) (open : list Session) :
  sessions open (map call_multipolygon_add_location ls) = Some open.
Proof. induction ls as [| l ls IH]; simpl; [reflexivity | assumption]. Qed.

Lemma sessions_item_script (it : Item) (open : list Session) :
  sessions open (item_script it) = Some open.
Proof.
  unfold item_script. destruct (type it); try reflexivity; simpl;
    now rewrite sessions_app, sessions_multipolygon_adds.
Qed.

Lemma sessions_rings_script (area : Area) (open : list Session) :
  sessions open (rings_script area) = Some open.
Proof.
  unfold rings_script. induction area as [| it area IH]; simpl; [reflexivity |].
  now rewrite sessions_app, sessions_item_script.
Qed.

(** Part of the way through a ring, the ring is open or nothing is. *)
Lemma sessions_ring_prefix (start finish : Call) (s : Session) (ls : list Location)
  (q r : list Call) (open : list Session) :
  opens start = Some s -> opens finish = None -> closes finish = Some s ->
  Session_eqb s s = true ->
  start :: map call_multipolygon_add_location ls ++ [finish] = q ++ r ->
  sessions open q = Some open \/ sessions open q = Some (s :: open).
Proof.
  intros Os Of Cf Es E. destruct q as [| c q]; [now left |].
  simpl in E. injection E as <- E. simpl. rewrite Os.
  apply app_eq_app in E. destruct E as [l [[E1 E2] | [E1 E2]]].
  - apply map_eq_app in E1. destruct E1 as (ls1 & ls2 & _ & <- & _).
    right. apply sessions_multipolygon_adds.
  - subst q. rewrite sessions_app, sessions_multipolygon_adds.
    destruct l as [| c l]; [now right |].
    injection E2 as <- E2. apply eq_sym, app_eq_nil in E2. destruct E2 as [-> _].
    left. simpl. now rewrite Of, Cf, Es.
Qed.

Lemma sessions_item_prefix (it : Item) (q r : list Call) (open : list Session) :
  item_script it = q ++ r ->
  sessions open q = Some open \/ exists s, sessions open q = Some (s :: open).
Proof.
  unfold item_script. destruct (type it); intros E;
    try (apply eq_sym, app_eq_nil in E; destruct E as [-> _]; now left).
  - destruct (@sessions_ring_prefix call_multipolygon_outer_ring_start
                call_multipolygon_outer_ring_finish outer_ring_session _ _ _ open
                eq_refl eq_refl eq_refl eq_refl E); eauto.
  - destruct (@sessions_ring_prefix call_multipolygon_inner_ring_start
                call_multipolygon_inner_ring_finish inner_ring_session _ _ _ open
                eq_refl eq_refl eq_refl eq_refl E); eauto.
Qed.

Lemma sessions_rings_prefix (area : Area) (q r : list Call) (open : list Session) :
  rings_script area = q ++ r ->
  sessions open q = Some open \/ exists s, sessions open q = Some (s :: open).
Proof.
  unfold rings_script. revert q r. induction area as [| it area IH]; intros q r E.
  - apply eq_sym, app_eq_nil in E. destruct E as [-> _]. now left.
  - simpl in E. apply app_eq_app in E. destruct E as [l [[E1 E2] | [E1 E2]]].
    + eapply sessions_item_prefix. exact E1.
    + subst q. rewrite sessions_app, sessions_item_script. eapply IH. exact E2.
Qed.

Section Attempted.

Context {G : Type} {impl : GeometryImpl G}.

Lemma attempted_cons_prefix (c : Call) (cs : list Call) (g : G) :
  exists q r, attempted (c :: cs) g = c :: q /\ cs = q ++ r.
Proof.
  destruct (attempted_not_nil c cs g) as [q E].
  destruct (attempted_prefix (c :: cs) g) as [r P].
  rewrite E in P. injection P as P. eauto.
Qed.

End Attempted.

Section Sessions.

Context {G : Type} {impl : GeometryImpl G}.

(** The calls of [create_linestring]: the start, some of the Locations,
    and the finish if all the calls before it returned. *)
Lemma create_linestring_calls (wnl : WayNodeList) (un : use_nodes) (dir : direction) (g : G) :
  exists ls,
    calls_of (create_linestring wnl un dir) g
    = (call_linestring_start :: map call_linestring_add_location ls)
        ++ (if returns (fst (run_calls
                               (call_linestring_start
                                  :: map call_linestring_add_location
                                       (linestring_locations wnl un dir)) g))
            then [call_linestring_finish] else []).
Proof.
  rewrite calls_of_create_linestring. unfold linestring_script.
  rewrite app_comm_cons, attempted_app.
  destruct (attempted_cons_prefix call_linestring_start
              (map call_linestring_add_location (linestring_locations wnl un dir)) g)
    as (q & r & -> & E).
  apply map_eq_app in E. destruct E as (ls & ls' & _ & <- & _).
  exists ls. f_equal. destruct (returns _); [apply attempted_single | reflexivity].
Qed.

(** The calls of [create_multipolygon]: the start, the calls of the
    rings up to some point, and the finish if all the calls before it
    returned and a ring was counted. *)
Lemma create_multipolygon_calls (area : Area) (g : G) :
  exists q r,
    rings_script area = q ++ r
    /\ (returns (fst (run_calls (call_multipolygon_start :: rings_script area) g)) = true ->
        r = [])
    /\ calls_of (create_multipolygon area) g
       = (call_multipolygon_start :: q)
           ++ (if returns (fst (run_calls (call_multipolygon_start :: rings_script area) g))
               then (if (final_count area =? 0)%Z then [] else [call_multipolygon_finish])
               else []).
Proof.
  rewrite calls_of_create_multipolygon. unfold multipolygon_script.
  rewrite attempted_app.
  destruct (attempted_cons_prefix call_multipolygon_start (rings_script area) g)
    as (q & r & A & E).
  exists q, r. split; [exact E |]. split.
  - intros R. rewrite (attempted_returns _ _ R) in A. injection A as A.
    rewrite A in E at 1. rewrite <- (app_nil_r q) in E at 1.
    now apply app_inv_head in E.
  - rewrite A. f_equal. destruct (returns _); [| reflexivity].
    destruct (final_count area =? 0)%Z; [reflexivity | apply attempted_single].
Qed.

(** C1, as the code has it.  [create_linestring] and
    [create_multipolygon] never close a session that is not open, nor one
    twice, and a call that returns has closed every session it opened,
    each once and by its own finish call.  There is no closing on the way
    out of a call that throws: the calls made are those of the script up
    to and including the first that throws, and none after it, nor any
    after [geometry_error("invalid area")]; so the sessions open then
    stay open.  All sessions are closed at a throwing exit only when it
    is the last call of all, [linestring_finish] or
    [multipolygon_finish], that threw. *)
Theorem sessions_closed_when_call_returns
  (g : G) (wnl : WayNodeList) (un : use_nodes) (dir : direction) (area : Area) :
  (calls_of (create_linestring wnl un dir) g = attempted (linestring_script wnl un dir) g
   /\ exists open,
      sessions [] (calls_of (create_linestring wnl un dir) g) = Some open
      /\ (returns (exit_of (create_linestring wnl un dir) g) = true -> open = [])
      /\ (returns (exit_of (create_linestring wnl un dir) g) = false ->
          open = [] ->
          exists before,
            calls_of (create_linestring wnl un dir) g = before ++ [call_linestring_finish]))
  /\ (calls_of (create_multipolygon area) g = attempted (multipolygon_script area) g
      /\ exists open,
         sessions [] (calls_of (create_multipolygon area) g) = Some open
         /\ (returns (exit_of (create_multipolygon area) g) = true -> open = [])
         /\ (returns (exit_of (create_multipolygon area) g) = false ->
             open = [] ->
             exists before,
               calls_of (create_multipolygon area) g
               = before ++ [call_multipolygon_finish])).
Proof.
  split; (split; [auto using calls_of_create_linestring, calls_of_create_multipolygon |]).
  - destruct (create_linestring_calls wnl un dir g) as [ls ->].
    rewrite exit_of_create_linestring, create_linestring_script.
    rewrite sessions_app.
    change (sessions [] (call_linestring_start :: map call_linestring_add_location ls))
      with (sessions [linestring_session] (map call_linestring_add_location ls)).
    rewrite sessions_linestring_adds.
    destruct (returns (fst (run_calls _ g))) eqn:R.
    + exists []. repeat split; eauto.
    + exists [linestring_session]. repeat split; try discriminate.
      intros R'. apply returns_bind in R'. congruence.
  - destruct (create_multipolygon_calls area g) as (q & r & E & F & ->).
    rewrite exit_of_create_multipolygon.
    rewrite sessions_app.
    change (sessions [] (call_multipolygon_start :: q))
      with (sessions [multipolygon_session] q).
    destruct (returns (fst (run_calls _ g))) eqn:R.
    + rewrite (F eq_refl), app_nil_r in E. subst q.
      rewrite sessions_rings_script.
      destruct (final_count area =? 0)%Z eqn:Z.
      * exists [multipolygon_session]. repeat split; try discriminate.
        intros R'. destruct (create_multipolygon_returns _ _ R') as [Z' _]. congruence.
      * exists []. repeat split; eauto.
    + assert (N : returns (fst (create_multipolygon area g)) = true -> False).
      { intros R'. rewrite create_multipolygon_script in R'.
        apply returns_bind in R'. congruence. }
      destruct (sessions_rings_prefix area q r [multipolygon_session] E) as [-> | [s ->]];
        eexists; (split; [reflexivity |]); split;
        try discriminate; intros R'; now destruct (N R').
Qed.

End Sessions.

(** C1 as the specification states it does not hold.  On the empty Area
    [create_multipolygon] calls [multipolygon_start], throws
    [geometry_error("invalid area")] and never calls
    [multipolygon_finish]; on the way of the test
    [linestring_with_undefined_location] [create_linestring] exits with
    the [invalid_location] of the second [linestring_add_location] and
    never calls [linestring_finish]. *)
Lemma session_left_open_when_call_throws :
  (exit_of (create_multipolygon []) CoordFactory.fresh
   = Throw (geometry_error "invalid area"%string)
   /\ calls_of (create_multipolygon []) CoordFactory.fresh = [call_multipolygon_start]
   /\ all_closed (calls_of (create_multipolygon []) CoordFactory.fresh) = false)
  /\ (exit_of (create_linestring testdata.wnl_undefined_last unique forward) CoordFactory.fresh
      = Throw (invalid_location "invalid location"%string)
      /\ calls_of (create_linestring testdata.wnl_undefined_last unique forward) CoordFactory.fresh
         = [call_linestring_start;
            call_linestring_add_location (coordinates 35 47);
            call_linestring_add_location undefined]
      /\ all_closed
           (calls_of (create_linestring testdata.wnl_undefined_last unique forward)
              CoordFactory.fresh) = false).
Proof. repeat split. Qed.

(** On the way of the tests and the Area of one outer and one inner ring
    both calls return, with every session closed. *)
Lemma sessions_closed_when_call_returns_witness :
  sessions [] (calls_of (create_linestring testdata.wnl unique forward) CoordFactory.fresh)
  = Some []
  /\ sessions [] (calls_of (create_multipolygon testdata.area_1outer_1inner) CoordFactory.fresh)
     = Some [].
Proof.
  destruct (sessions_closed_when_call_returns CoordFactory.fresh
              testdata.wnl unique forward testdata.area_1outer_1inner)
    as [[_ [open1 (S1 & R1 & _)]] [_ [open2 (S2 & R2 & _)]]].
  rewrite S1, S2, (R1 eq_refl), (R2 eq_refl). split; reflexivity.
Defined.

(** ** The count of the rings *)

Lemma iter_incr (n : nat) :
  (Z.of_nat n <= INT_MAX)%Z -> Nat.iter n incr 0%Z = Z.of_nat n.
Proof.
  unfold INT_MAX. induction n as [| n IH]; intros B.
  - reflexivity.
  - simpl Nat.iter. rewrite IH by lia. unfold incr, int_wrap.
    rewrite Z.mod_small by lia. lia.
Qed.

Lemma final_count_fits (area : Area) :
  (Z.of_nat (count_rings area) <= INT_MAX)%Z ->
  final_count area = Z.of_nat (count_rings area).
Proof. apply iter_incr. Qed.

Lemma count_rings_zero (area : Area) :
  count_rings area = 0%nat -> forallb (fun it => negb (is_ring it)) area = true.
Proof.
  unfold count_rings. induction area as [| it area IH]; simpl; [reflexivity |].
  destruct (is_ring it); simpl; [discriminate | exact IH].
Qed.

Lemma all_closed_multipolygon (area : Area) :
  all_closed (call_multipolygon_start :: rings_script area ++ [call_multipolygon_finish])
  = true.
Proof.
  unfold all_closed.
  change (sessions [] (call_multipolygon_start :: ?cs))
    with (sessions [multipolygon_session] cs).
  now rewrite sessions_app, sessions_rings_script.
Qed.

Section InvalidArea.

Context {G : Type} {impl : GeometryImpl G}.

(** With a ring counted, [create_multipolygon] throws nothing of its
    own. *)
Lemma create_multipolygon_with_rings (area : Area) (g : G) :
  (Z.of_nat (count_rings area) <= INT_MAX)%Z ->
  count_rings area <> 0%nat ->
  create_multipolygon area g
  = bind (run_calls (call_multipolygon_start :: rings_script area))
         (fun _ => multipolygon_finish) g
  /\ calls_of (create_multipolygon area) g
     = attempted (call_multipolygon_start :: rings_script area ++ [call_multipolygon_finish]) g.
Proof.
  intros B N.
  assert (Z : (final_count area =? 0)%Z = false).
  { rewrite final_count_fits by assumption. apply Z.eqb_neq. lia. }
  rewrite create_multipolygon_script, calls_of_create_multipolygon.
  unfold multipolygon_script. rewrite Z. split; reflexivity.
Qed.

(** C5.  For an Area whose rings the [int] counter can count:
    without rings, [create_multipolygon] throws
    [geometry_error("invalid area")] once [multipolygon_start] has
    returned, and makes no further call; with a ring, it makes the calls
    of the rings and [multipolygon_finish] and exits as the last of them
    does, throwing nothing of its own.  So on an implementation whose
    calls all return, [create_multipolygon] throws
    [geometry_error("invalid area")] exactly when the Area has no ring,
    and otherwise returns with the multipolygon session closed. *)
Theorem create_multipolygon_invalid_area_iff_no_rings (g : G) (area : Area) :
  (Z.of_nat (count_rings area) <= INT_MAX)%Z ->
  (count_rings area = 0%nat ->
   returns (fst (multipolygon_start g)) = true ->
   exit_of (create_multipolygon area) g = Throw (geometry_error "invalid area"%string)
   /\ calls_of (create_multipolygon area) g = [call_multipolygon_start])
  /\ (count_rings area <> 0%nat ->
      create_multipolygon area g
      = bind (run_calls (call_multipolygon_start :: rings_script area))
             (fun _ => multipolygon_finish) g
      /\ calls_of (create_multipolygon area) g
         = attempted
             (call_multipolygon_start :: rings_script area ++ [call_multipolygon_finish]) g)
  /\ (returns (fst (run_calls
                      (call_multipolygon_start
                         :: rings_script area ++ [call_multipolygon_finish]) g)) = true ->
      (exit_of (create_multipolygon area) g = Throw (geometry_error "invalid area"%string)
       <-> count_rings area = 0%nat)
      /\ (count_rings area <> 0%nat ->
          (exists r, exit_of (create_multipolygon area) g = Ok r)
          /\ all_closed (calls_of (create_multipolygon area) g) = true)).
Proof.
  intros B.
  assert (P1 : count_rings area = 0%nat ->
               returns (fst (multipolygon_start g)) = true ->
               exit_of (create_multipolygon area) g
               = Throw (geometry_error "invalid area"%string)
               /\ calls_of (create_multipolygon area) g = [call_multipolygon_start]).
  { intros Z S.
    apply create_multipolygon_no_rings; [now apply count_rings_zero | exact S]. }
  assert (P3 : returns (fst (run_calls
                               (call_multipolygon_start
                                  :: rings_script area ++ [call_multipolygon_finish]) g)) = true ->
               count_rings area <> 0%nat ->
               (exists r, exit_of (create_multipolygon area) g = Ok r)
               /\ all_closed (calls_of (create_multipolygon area) g) = true).
  { intros R N.
    destruct (create_multipolygon_with_rings area g B N) as [E C].
    rewrite exit_of_create_multipolygon, E, C, (attempted_returns _ _ R).
    split; [| apply all_closed_multipolygon].
    rewrite app_comm_cons, run_calls_app in R. unfold bind in *.
    destruct (run_calls (call_multipolygon_start :: rings_script area) g)
      as [[[] | e] g1]; [| discriminate].
    simpl in R. unfold bind in R.
    destruct (multipolygon_finish g1) as [[r | e] g2]; [| discriminate].
    now exists r. }
  split; [exact P1 |]. split; [now apply create_multipolygon_with_rings |].
  intros R. split; [| now apply P3]. split.
  - intros T. destruct (Nat.eq_dec (count_rings area) 0) as [Z | N]; [exact Z |].
    destruct (P3 R N) as [[r E] _]. congruence.
  - intros Z. apply P1; [exact Z |].
    simpl in R. now apply returns_bind in R.
Qed.

End InvalidArea.

(** The Area of one outer and one inner ring has rings, and every call
    on [CoordFactory] returns. *)
Lemma create_multipolygon_invalid_area_iff_no_rings_witness :
  exists r,
    exit_of (create_multipolygon testdata.area_1outer_1inner) CoordFactory.fresh = Ok r.
Proof.
  apply (create_multipolygon_invalid_area_iff_no_rings
           CoordFactory.fresh testdata.area_1outer_1inner).
  - vm_compute. discriminate.
  - reflexivity.
  - discriminate.
Defined.

(** ** The two directions *)

Lemma last_map_location (wnl : WayNodeList) (n : NodeRef) :
  List.last (map location wnl) (location n) = location (List.last wnl n).
Proof.
  induction wnl as [| m wnl IH]; [reflexivity |].
  destruct wnl as [| m' wnl]; [reflexivity | exact IH].
Qed.

(** The Locations of the backward script are those of the forward
    script, reversed. *)
Lemma linestring_locations_backward (wnl : WayNodeList) (un : use_nodes) :
  fits_int wnl ->
  un = all \/ ends_defined wnl = true ->
  linestring_locations wnl un backward = rev (linestring_locations wnl un forward).
Proof.
  intros F C. unfold linestring_locations.
  rewrite visited_backward by assumption. simpl visited. rewrite map_rev.
  destruct un; [| reflexivity].
  destruct C as [C | C]; [discriminate |].
  destruct wnl as [| n wnl]; [reflexivity |].
  simpl in C. apply andb_true_iff in C. destruct C as [Cf Cl].
  apply collapse_rev.
  - simpl. now rewrite Location_neq_undefined.
  - simpl map. rewrite last_cons, last_map_location, Location_neq_undefined.
    exact Cl.
Qed.

(** X6.  Where the two directions do mirror each other.  For a node list
    within the range of the [int] index: with [use_nodes::all], and with
    [use_nodes::unique] when neither the first nor the last node has the
    undefined Location, two calls of [create_linestring] that return,
    one backward and one forward, have handed to
    [linestring_add_location] sequences of Locations that are the
    reverse of each other. *)
Lemma create_linestring_backward_is_reverse
  (G : Type) (impl : GeometryImpl G) (g g' : G) (wnl : WayNodeList) (un : use_nodes) :
  fits_int wnl ->
  un = all \/ ends_defined wnl = true ->
  returns (exit_of (create_linestring wnl un forward) g) = true ->
  returns (exit_of (create_linestring wnl un backward) g') = true ->
  added_locations (calls_of (create_linestring wnl un backward) g')
  = rev (added_locations (calls_of (create_linestring wnl un forward) g)).
Proof.
  intros F C Rf Rb. rewrite exit_of_create_linestring in Rf, Rb.
  rewrite (create_linestring_returns _ _ _ _ Rf), (create_linestring_returns _ _ _ _ Rb).
  rewrite !added_locations_script. now apply linestring_locations_backward.
Qed.

(** The way of the test [linestring], with and without collapsing. *)
Example create_linestring_backward_is_reverse_on_test_way :
  added_locations (calls_of (create_linestring testdata.wnl unique backward) CoordFactory.fresh)
  = rev (added_locations
           (calls_of (create_linestring testdata.wnl unique forward) CoordFactory.fresh))
  /\ added_locations (calls_of (create_linestring testdata.wnl all backward) CoordFactory.fresh)
     = rev (added_locations
              (calls_of (create_linestring testdata.wnl all forward) CoordFactory.fresh)).
Proof.
  split.
  - apply (@create_linestring_backward_is_reverse _ CoordFactory.impl
             CoordFactory.fresh CoordFactory.fresh testdata.wnl unique).
    + vm_compute. discriminate.
    + right. reflexivity.
    + reflexivity.
    + reflexivity.
  - apply (@create_linestring_backward_is_reverse _ CoordFactory.impl
             CoordFactory.fresh CoordFactory.fresh testdata.wnl all).
    + vm_compute. discriminate.
    + left. reflexivity.
    + reflexivity.
    + reflexivity.
Defined.

(** C2.  The backward linestring is not always the reverse of the
    forward one.  With the undefined Location on the first node and
    [use_nodes::unique], the forward call skips that node, because the
    comparison starts from the undefined Location, and returns the
    linestring of the other two; the backward call comes to it last,
    hands it to [linestring_add_location] and exits with
    [invalid_location]. *)
Theorem create_linestring_backward_not_reverse :
  fst (create_linestring testdata.wnl_undefined_first unique forward CoordFactory.fresh)
  = Ok [coordinates 32 42; coordinates 35 47]
  /\ fst (create_linestring testdata.wnl_undefined_first unique backward CoordFactory.fresh)
     = Throw (invalid_location "invalid location"%string)
  /\ added_locations
       (calls_of (create_linestring testdata.wnl_undefined_first unique forward)
          CoordFactory.fresh)
     = [coordinates 32 42; coordinates 35 47]
  /\ added_locations
       (calls_of (create_linestring testdata.wnl_undefined_first unique backward)
          CoordFactory.fresh)
     = [coordinates 35 47; coordinates 32 42; undefined]
  /\ added_locations
       (calls_of (create_linestring testdata.wnl_undefined_first unique backward)
          CoordFactory.fresh)
     <> rev (added_locations
               (calls_of (create_linestring testdata.wnl_undefined_first unique forward)
                  CoordFactory.fresh)).
Proof. repeat split. discriminate. Qed.

(** ** create_point *)

(** C8.  The three overloads of [create_point] hand the Location of
    their argument to [make_point] and exit as it does, with no other
    call on the implementation.  So on an implementation whose
    [make_point] throws [invalid_location] for the undefined Location, as
    the capability contract requires, each of them throws
    [invalid_location] for an undefined Location and returns no
    geometry. *)
Theorem create_point_delegates_to_make_point
  (G : Type) (impl : GeometryImpl G) (g : G)
  (l : Location) (node : Node) (way_node : NodeRef) :
  (forall g0 : G, exists what, fst (make_point undefined g0) = Throw (invalid_location what)) ->
  (create_point l g = make_point l g
   /\ create_point_node node g = make_point (node_location node) g
   /\ create_point_node_ref way_node g = make_point (location way_node) g)
  /\ (calls_of (create_point l) g = [call_make_point l]
      /\ calls_of (create_point_node node) g = [call_make_point (node_location node)]
      /\ calls_of (create_point_node_ref way_node) g = [call_make_point (location way_node)])
  /\ (exists what, fst (create_point undefined g) = Throw (invalid_location what))
  /\ (node_location node = undefined ->
      exists what, fst (create_point_node node g) = Throw (invalid_location what))
  /\ (location way_node = undefined ->
      exists what, fst (create_point_node_ref way_node g) = Throw (invalid_location what)).
Proof.
  intros Contract. repeat split.
  - unfold calls_of, create_point. simpl. now rewrite logged_run.
  - unfold calls_of, create_point_node, create_point. simpl. now rewrite logged_run.
  - unfold calls_of, create_point_node_ref, create_point. simpl. now rewrite logged_run.
  - apply Contract.
  - unfold create_point_node, create_point. intros ->. apply Contract.
  - unfold create_point_node_ref, create_point. intros ->. apply Contract.
Qed.

Lemma make_point_contract (g0 : CoordFactory.t) :
  exists what, fst (make_point undefined g0) = Throw (invalid_location what).
Proof. now exists "invalid location"%string. Qed.

(** The test [empty_point], on [CoordFactory], for the three
    overloads. *)
Lemma create_point_delegates_to_make_point_witness :
  (exists what,
      fst (create_point undefined CoordFactory.fresh) = Throw (invalid_location what))
  /\ (exists what,
        fst (create_point_node (mkNode 1 undefined) CoordFactory.fresh)
        = Throw (invalid_location what))
  /\ (exists what,
        fst (create_point_node_ref (mkNodeRef 1 undefined) CoordFactory.fresh)
        = Throw (invalid_location what)).
Proof.
  destruct (@create_point_delegates_to_make_point _ CoordFactory.impl CoordFactory.fresh
              undefined (mkNode 1 undefined) (mkNodeRef 1 undefined) make_point_contract)
    as (_ & _ & E1 & E2 & E3).
  split; [exact E1 | split; [exact (E2 eq_refl) | exact (E3 eq_refl)]].
Defined.

(** ** The tests of test_geojson.cpp, on [CoordFactory] *)

Example test_point :
  fst (create_point (coordinates 32 42) CoordFactory.fresh) = Ok (coordinates 32 42).
Proof. reflexivity. Qed.

Example test_linestring :
  fst (create_linestring testdata.wnl unique forward CoordFactory.fresh)
  = Ok [coordinates 32 42; coordinates 35 47; coordinates 36 49]
  /\ fst (create_linestring testdata.wnl unique backward CoordFactory.fresh)
     = Ok [coordinates 36 49; coordinates 35 47; coordinates 32 42]
  /\ fst (create_linestring testdata.wnl all forward CoordFactory.fresh)
     = Ok [coordinates 32 42; coordinates 35 47; coordinates 35 47; coordinates 36 49]
  /\ fst (create_linestring testdata.wnl all backward CoordFactory.fresh)
     = Ok [coordinates 36 49; coordinates 35 47; coordinates 35 47; coordinates 32 42].
Proof. repeat split. Qed.

Example test_empty_linestring (un : use_nodes) (dir : direction) :
  fst (create_linestring [] un dir CoordFactory.fresh)
  = Throw (geometry_error "not enough points for linestring"%string).
Proof. destruct un, dir; reflexivity. Qed.

Example test_linestring_with_two_same_locations (dir : direction) :
  fst (create_linestring
         [mkNodeRef 1 (coordinates 35 47); mkNodeRef 2 (coordinates 35 47)]
         unique dir CoordFactory.fresh)
  = Throw (geometry_error "not enough points for linestring"%string)
  /\ fst (create_linestring
            [mkNodeRef 1 (coordinates 35 47); mkNodeRef 2 (coordinates 35 47)]
            all dir CoordFactory.fresh)
     = Ok [coordinates 35 47; coordinates 35 47].
Proof. destruct dir; split; reflexivity. Qed.

Example test_linestring_with_undefined_location :
  fst (create_linestring testdata.wnl_undefined_last unique forward CoordFactory.fresh)
  = Throw (invalid_location "invalid location"%string).
Proof. reflexivity. Qed.

Example test_area_1outer_0inner :
  fst (create_multipolygon testdata.area_1outer_0inner CoordFactory.fresh)
  = Ok [[map location testdata.ring]].
Proof. reflexivity. Qed.

Example test_area_1outer_1inner :
  fst (create_multipolygon testdata.area_1outer_1inner CoordFactory.fresh)
  = Ok [[map location testdata.ring; map location testdata.inner]].
Proof. reflexivity. Qed.

(** Rings in the order outer, inner, inner, outer: two polygons, with
    the two holes in the first. *)
Example test_area_2outer_2inner :
  fst (create_multipolygon
         [ mkItem item_type.outer_ring testdata.ring;
           mkItem item_type.inner_ring testdata.inner;
           mkItem item_type.inner_ring testdata.inner;
           mkItem item_type.outer_ring testdata.ring ]
         CoordFactory.fresh)
  = Ok [ [map location testdata.ring; map location testdata.inner;
          map location testdata.inner];
         [map location testdata.ring] ].
Proof. reflexivity. Qed.

(* ================================================================== *)
(** * Properties of the diff visitor *)

Lemma noted_run {W A : Type} (i : diff.Invocation) (m : M W A) (log : list diff.Invocation) (w : W) :
  diff.noted i m (log, w) = (fst (m w), (log ++ [i], snd (m w))).
Proof. unfold diff.noted. simpl. now destruct (m w). Qed.

Lemma returns_unit {S : Type} (r : outcome unit * S) :
  returns (fst r) = true -> r = (Ok tt, snd r).
Proof. destruct r as [[[] | e] s]; [reflexivity | discriminate]. Qed.

Section Dispatch.

Context {W : Type}.

(** A DiffObject of illegal kind stops the dispatch at the first
    handler, before any callback. *)
Lemma recurse_unknown_type (d : diff.DiffObject) (handler : diff.Handler W)
  (more : list (diff.Handler W)) (w : W) :
  diff.legal d = false ->
  diff.apply_diff_iterator_recurse d handler more w
  = (Throw (runtime_error "unknown type"%string), w).
Proof.
  intros L.
  assert (E : diff.apply_diff_iterator_recurse1 d handler w
              = (Throw (runtime_error "unknown type"%string), w)).
  { unfold diff.apply_diff_iterator_recurse1. unfold diff.legal in L.
    destruct (diff.type d); try discriminate; reflexivity. }
  destruct more as [| next rest]; simpl.
  - exact E.
  - now rewrite (bind_throw _ _ _ E).
Qed.

(** One handler that does not throw, one DiffObject of legal kind: one
    callback, the one of the kind. *)
Lemma recurse1_observed (d : diff.DiffObject) (i : nat) (h : diff.Handler W)
  (log : list diff.Invocation) (w : W) :
  diff.legal d = true ->
  diff.never_throws h ->
  exists w',
    diff.apply_diff_iterator_recurse1 d (diff.observed i h) (log, w)
    = (Ok tt, (log ++ [diff.mkInvocation i (diff.callback_of d) d], w')).
Proof.
  intros L N. destruct (N d w) as (Rn & Rw & Rr).
  unfold diff.apply_diff_iterator_recurse1, diff.callback_of.
  unfold diff.legal in L.
  destruct (diff.type d); try discriminate; simpl; rewrite noted_run;
    eexists; [rewrite (returns_unit _ Rn) | rewrite (returns_unit _ Rw)
             | rewrite (returns_unit _ Rr)]; reflexivity.
Qed.

(** All the handlers, in the order of the argument list. *)
Lemma recurse_observed (d : diff.DiffObject) (more : list (diff.Handler W)) :
  diff.legal d = true ->
  Forall diff.never_throws more ->
  forall (i : nat) (h : diff.Handler W) (log : list diff.Invocation) (w : W),
    diff.never_throws h ->
    exists w',
      diff.apply_diff_iterator_recurse d (diff.observed i h)
        (diff.observed_from (S i) more) (log, w)
      = (Ok tt,
         (log ++ map (fun j => diff.mkInvocation j (diff.callback_of d) d)
                     (seq i (S (length more))),
          w')).
Proof.
  intros L. induction 1 as [| next more Nn Nm IH]; intros i h log w Nh.
  - apply recurse1_observed; assumption.
  - destruct (@recurse1_observed d i h log w L Nh) as [w1 E1].
    destruct (IH (S i) next (log ++ [diff.mkInvocation i (diff.callback_of d) d]) w1 Nn)
      as [w2 E2].
    exists w2. simpl diff.observed_from. simpl diff.apply_diff_iterator_recurse.
    rewrite (bind_ok _ _ _ E1), E2. now rewrite <- app_assoc.
Qed.

(** All the DiffObjects, in the order of the iteration. *)
Lemma apply_diff_loop_observed (handler : diff.Handler W) (more : list (diff.Handler W))
  (dits : list diff.DiffObject) :
  diff.never_throws handler ->
  Forall diff.never_throws more ->
  Forall (fun d => diff.legal d = true) dits ->
  forall (log : list diff.Invocation) (w : W),
    exists w',
      diff.apply_diff_loop dits (diff.observed 0 handler) (diff.observed_from 1 more) (log, w)
      = (Ok tt, (log ++ diff.expected_callbacks (S (length more)) dits, w')).
Proof.
  intros Nh Nm. induction 1 as [| d dits L Ls IH]; intros log w.
  - exists w. simpl. now rewrite app_nil_r.
  - destruct (@recurse_observed d more L Nm 0 handler log w Nh) as [w1 E1].
    destruct (IH (log ++ map (fun j => diff.mkInvocation j (diff.callback_of d) d)
                            (seq 0 (S (length more)))) w1) as [w2 E2].
    exists w2. simpl diff.apply_diff_loop.
    rewrite (bind_ok _ _ _ E1), E2.
    unfold diff.expected_callbacks. simpl flat_map. now rewrite <- app_assoc.
Qed.

End Dispatch.

Lemma expected_callbacks_length (n : nat) (dits : list diff.DiffObject) :
  length (diff.expected_callbacks n dits) = (n * length dits)%nat.
Proof.
  unfold diff.expected_callbacks. induction dits as [| d dits IH]; simpl.
  - lia.
  - rewrite length_app, length_map, length_seq, IH. lia.
Qed.

(** C6.  [apply_diff] with N handlers, none of which throws, over the M
    DiffObjects of the DiffIterator, all of one of the three kinds:
    the call returns, and the callbacks it has made are, DiffObject by
    DiffObject in the order of the iteration, one for each handler in the
    order of the argument list, each the callback of the kind of the
    DiffObject and each on that DiffObject; N times M callbacks in all.
    The iteration is gone through once: the callbacks of one DiffObject
    stand together in the log. *)
Theorem apply_diff_calls_every_handler_for_every_diff
  (W TItem : Type) (DiffIterator : list TItem -> list diff.DiffObject)
  (range : list TItem) (handler : diff.Handler W) (more : list (diff.Handler W)) (w : W) :
  Forall (fun d => diff.legal d = true) (DiffIterator range) ->
  Forall diff.never_throws (handler :: more) ->
  diff.exit_of DiffIterator range handler more w = Ok tt
  /\ diff.callbacks_of DiffIterator range handler more w
     = diff.expected_callbacks (S (length more)) (DiffIterator range)
  /\ length (diff.callbacks_of DiffIterator range handler more w)
     = (S (length more) * length (DiffIterator range))%nat.
Proof.
  intros L N. inversion N as [| ? ? Nh Nm]; subst.
  unfold diff.exit_of, diff.callbacks_of, diff.apply_diff.
  destruct (@apply_diff_loop_observed W handler more (DiffIterator range) Nh Nm L [] w) as [w' ->].
  simpl. repeat split. apply expected_callbacks_length.
Qed.

Lemma counting_never_throws : diff.never_throws testdata.counting.
Proof. intros d w. repeat split. Qed.

(** Two handlers, three DiffObjects: six callbacks. *)
Lemma apply_diff_calls_every_handler_for_every_diff_witness :
  diff.exit_of testdata.as_given testdata.diffs testdata.counting [testdata.counting] 0%nat
  = Ok tt
  /\ diff.callbacks_of testdata.as_given testdata.diffs testdata.counting
       [testdata.counting] 0%nat
     = diff.expected_callbacks 2 testdata.diffs
  /\ length (diff.callbacks_of testdata.as_given testdata.diffs testdata.counting
               [testdata.counting] 0%nat)
     = 6%nat.
Proof.
  apply (@apply_diff_calls_every_handler_for_every_diff nat diff.DiffObject
           testdata.as_given testdata.diffs testdata.counting [testdata.counting] 0%nat).
  - repeat constructor.
  - repeat constructor; apply counting_never_throws.
Defined.

Lemma apply_diff_loop_app {W : Type} (a b : list diff.DiffObject)
  (handler : diff.Handler W) (more : list (diff.Handler W)) (w : W) :
  diff.apply_diff_loop (a ++ b) handler more w
  = bind (diff.apply_diff_loop a handler more)
         (fun _ => diff.apply_diff_loop b handler more) w.
Proof.
  revert w. induction a as [| d a IH]; intros w; simpl.
  - reflexivity.
  - rewrite bind_assoc. apply bind_ext. intros _ w'. apply IH.
Qed.

(** The loop stops at a DiffObject of illegal kind. *)
Lemma apply_diff_loop_unknown_type {W : Type} (before rest : list diff.DiffObject)
  (d : diff.DiffObject) (handler : diff.Handler W) (more : list (diff.Handler W)) (w w1 : W) :
  diff.legal d = false ->
  diff.apply_diff_loop before handler more w = (Ok tt, w1) ->
  diff.apply_diff_loop (before ++ d :: rest) handler more w
  = (Throw (runtime_error "unknown type"%string), w1).
Proof.
  intros L B. rewrite apply_diff_loop_app, (bind_ok _ _ _ B). simpl.
  now rewrite (bind_throw _ _ _ (@recurse_unknown_type W d handler more w1 L)).
Qed.

(** C7.  The dispatch of one DiffObject to one handler calls [node],
    [way] or [relation] on that very DiffObject by its kind tag, and
    throws [std::runtime_error("unknown type")] for any other tag,
    without a callback.  The exception is caught nowhere: when the
    iteration comes to such a DiffObject, the DiffObjects before it
    dispatched, [apply_diff] calls no handler for it and none for the
    DiffObjects after it, and exits with that exception. *)
Theorem unknown_kind_is_fatal
  (W TItem : Type) (DiffIterator : list TItem -> list diff.DiffObject) (range : list TItem)
  (d : diff.DiffObject) (before rest : list diff.DiffObject)
  (handler : diff.Handler W) (more : list (diff.Handler W)) (w : W) :
  match diff.callback_for (diff.type d) with
  | Some diff.node_callback =>
      diff.apply_diff_iterator_recurse1 d handler w = diff.node handler d w
  | Some diff.way_callback =>
      diff.apply_diff_iterator_recurse1 d handler w = diff.way handler d w
  | Some diff.relation_callback =>
      diff.apply_diff_iterator_recurse1 d handler w = diff.relation handler d w
  | None =>
      diff.apply_diff_iterator_recurse1 d handler w
      = (Throw (runtime_error "unknown type"%string), w)
  end
  /\ (diff.legal d = false ->
      DiffIterator range = before ++ d :: rest ->
      (forall w1 : W,
          diff.apply_diff_loop before handler more w = (Ok tt, w1) ->
          diff.apply_diff DiffIterator range handler more w
          = (Throw (runtime_error "unknown type"%string), w1))
      /\ (returns (diff.exit_of (fun r => r) before handler more w) = true ->
          diff.exit_of DiffIterator range handler more w
          = Throw (runtime_error "unknown type"%string)
          /\ diff.callbacks_of DiffIterator range handler more w
             = diff.callbacks_of (fun r => r) before handler more w)).
Proof.
  split.
  - unfold diff.apply_diff_iterator_recurse1.
    destruct (diff.type d); reflexivity.
  - intros L E. split.
    + intros w1 B. unfold diff.apply_diff. rewrite E.
      now apply apply_diff_loop_unknown_type.
    + unfold diff.exit_of, diff.callbacks_of, diff.apply_diff. rewrite E.
      intros R. apply returns_unit in R.
      rewrite (@apply_diff_loop_unknown_type _ before rest d _ _ _ _ L R).
      rewrite R. split; reflexivity.
Qed.

(** A DiffObject tagged as an area, after one legal DiffObject and ahead
    of two: the two handlers are called for the first and for no
    other. *)
Lemma unknown_kind_is_fatal_witness :
  diff.exit_of testdata.as_given
    (firstn 1 testdata.diffs ++ testdata.unknown_diff :: skipn 1 testdata.diffs)
    testdata.counting [testdata.counting] 0%nat
  = Throw (runtime_error "unknown type"%string)
  /\ diff.callbacks_of testdata.as_given
       (firstn 1 testdata.diffs ++ testdata.unknown_diff :: skipn 1 testdata.diffs)
       testdata.counting [testdata.counting] 0%nat
     = diff.expected_callbacks 2 (firstn 1 testdata.diffs).
Proof.
  destruct (@unknown_kind_is_fatal nat diff.DiffObject testdata.as_given
              (firstn 1 testdata.diffs ++ testdata.unknown_diff :: skipn 1 testdata.diffs)
              testdata.unknown_diff (firstn 1 testdata.diffs) (skipn 1 testdata.diffs)
              testdata.counting [testdata.counting] 0%nat)
    as [_ F].
  destruct (F eq_refl eq_refl) as [_ F'].
  destruct (F' eq_refl) as [E C]. split; assumption.
Defined.

(* ================================================================== *)
(** * Further properties of the geometry factory *)

(** ** Linestrings of all nodes, of no node, of equal nodes *)

Lemma collapse_length (ls : list Location) (last : Location) :
  (length (collapse last ls) <= length ls)%nat.
Proof.
  revert last. induction ls as [| l ls IH]; intros last; simpl.
  - lia.
  - destruct (Location_neq last l); simpl; specialize (IH l); lia.
Qed.

Lemma collapse_constant (L : Location) (ls : list Location) (last : Location) :
  Forall (fun l => l = L) ls ->
  collapse last ls
  = match ls with
    | [] => []
    | _ :: _ => if Location_neq last L then [L] else []
    end.
Proof.
  intros A. revert last. induction A as [| l ls -> A IH]; intros last.
  - reflexivity.
  - simpl collapse. rewrite IH.
    destruct ls as [| l' ls]; [now destruct (Location_neq last L) |].
    rewrite Location_neq_refl. now destruct (Location_neq last L).
Qed.

Lemma Forall_location_map (L : Location) (wnl : WayNodeList) :
  Forall (fun n => location n = L) wnl ->
  Forall (fun l => l = L) (map location wnl).
Proof. induction 1; simpl; constructor; assumption. Qed.

Section MoreLinestring.

Context {G : Type} {impl : GeometryImpl G}.

(** X1.  With [use_nodes::all] every Location of the list is handed to
    [linestring_add_location], equal neighbours and undefined ones too:
    however the call exits, the Locations added are the first so many of
    those of the nodes visited; when it returns, they are all of them, as
    many as the list has nodes, in the order of the list or, backward, in
    the reverse order (for a list within the range of the [int]
    index). *)
Theorem create_linestring_all_adds_every_location
  (g : G) (wnl : WayNodeList) (dir : direction) :
  (exists rest,
      map location (visited dir wnl)
      = added_locations (calls_of (create_linestring wnl all dir) g) ++ rest)
  /\ (returns (exit_of (create_linestring wnl all dir) g) = true ->
      added_locations (calls_of (create_linestring wnl all dir) g)
      = map location (visited dir wnl)
      /\ (dir = forward \/ fits_int wnl ->
          added_locations (calls_of (create_linestring wnl all dir) g)
          = match dir with
            | forward => map location wnl
            | backward => rev (map location wnl)
            end
          /\ length (added_locations (calls_of (create_linestring wnl all dir) g))
             = length wnl)).
Proof.
  split.
  - apply (create_linestring_added wnl all dir g).
  - rewrite exit_of_create_linestring. intros R.
    rewrite (create_linestring_returns _ _ _ _ R), added_locations_script.
    unfold linestring_locations. split; [reflexivity |].
    intros F. destruct dir.
    + destruct F as [F | F]; [discriminate |].
      rewrite visited_backward by assumption.
      now rewrite map_rev, length_rev, length_map.
    + simpl. now rewrite length_map.
Qed.

(** X2.  On the empty node list the four combinations of [use_nodes] and
    [direction] do the same: [linestring_start], then
    [linestring_finish], and no [linestring_add_location] ([wnl.size()-1]
    wraps around to [-1] as an [int], so the backward loops end at once).
    The factory itself throws nothing: whether an empty linestring is an
    error is left to [linestring_finish]. *)
Theorem create_linestring_empty (g : G) (un : use_nodes) (dir : direction) (id : Z) :
  create_linestring [] un dir g = bind linestring_start (fun _ => linestring_finish) g
  /\ create_linestring_way (mkWay id []) un dir g
     = bind linestring_start (fun _ => linestring_finish) g
  /\ calls_of (create_linestring [] un dir) g
     = if returns (fst (linestring_start g))
       then [call_linestring_start; call_linestring_finish]
       else [call_linestring_start].
Proof.
  assert (E : linestring_script [] un dir
              = [call_linestring_start; call_linestring_finish]).
  { destruct un, dir; reflexivity. }
  assert (C : create_linestring [] un dir g
              = bind linestring_start (fun _ => linestring_finish) g).
  { unfold create_linestring. apply bind_ext. intros _ g'.
    destruct un, dir; reflexivity. }
  split; [exact C |]. split; [exact C |].
  rewrite calls_of_create_linestring, E. simpl.
  destruct (linestring_start g) as [[[] | e] g1]; simpl; [| reflexivity].
  now destruct (bind linestring_finish (fun _ => ret tt) g1) as [[[] | e] g2].
Qed.

(** X3.  What [use_nodes::unique] adds is what [use_nodes::all] adds with
    every Location dropped that equals the one before it (or is
    undefined with none before it): of two calls on the same list in the
    same direction that return, the unique one has added the Locations of
    the other that differ from their predecessor, never more of them. *)
Theorem create_linestring_unique_is_all_collapsed
  (g g' : G) (wnl : WayNodeList) (dir : direction) :
  returns (exit_of (create_linestring wnl unique dir) g) = true ->
  returns (exit_of (create_linestring wnl all dir) g') = true ->
  added_locations (calls_of (create_linestring wnl unique dir) g)
  = keep_changes undefined
      (added_locations (calls_of (create_linestring wnl all dir) g'))
  /\ (length (added_locations (calls_of (create_linestring wnl unique dir) g))
      <= length (added_locations (calls_of (create_linestring wnl all dir) g')))%nat.
Proof.
  rewrite !exit_of_create_linestring. intros Ru Ra.
  rewrite (create_linestring_returns _ _ _ _ Ru), (create_linestring_returns _ _ _ _ Ra).
  rewrite !added_locations_script. unfold linestring_locations. split.
  - apply collapse_keep_changes.
  - apply collapse_length.
Qed.

(** X4.  With [use_nodes::unique] the first Location handed to
    [linestring_add_location] is never the undefined one, however the
    call exits; nor is the first that [add_points] hands to
    [multipolygon_add_location]. *)
Theorem first_location_added_is_defined
  (g : G) (wnl : WayNodeList) (dir : direction) (ring : OuterRing)
  (l : Location) (more : list Location) (calls : list Call) :
  (added_locations (calls_of (create_linestring wnl unique dir) g) = l :: more ->
   l <> undefined)
  /\ (calls_of (add_points ring) g = call_multipolygon_add_location l :: calls ->
      l <> undefined).
Proof.
  split.
  - intros E. destruct (create_linestring_added wnl unique dir g) as [rest P].
    rewrite E in P. unfold linestring_locations in P.
    pose proof (collapse_no_consecutive_equal
                  (map location (visited dir wnl)) undefined) as N.
    rewrite P in N. simpl app in N.
    rewrite no_consecutive_equal_cons in N. apply andb_true_iff in N.
    destruct N as [N _]. apply Location_neq_true in N. congruence.
  - intros E. rewrite calls_of_add_points in E.
    destruct (attempted_prefix
                (map call_multipolygon_add_location (ring_locations ring)) g)
      as [rest P].
    rewrite E in P. unfold ring_locations in P.
    pose proof (collapse_no_consecutive_equal (map location ring) undefined) as N.
    destruct (collapse undefined (map location ring)) as [| l' ls]; [discriminate |].
    simpl in P. injection P as P _. subst l'.
    rewrite no_consecutive_equal_cons in N. apply andb_true_iff in N.
    destruct N as [N _]. apply Location_neq_true in N. congruence.
Qed.

(** A call that got as far as [linestring_finish] has made all the
    calls of the script. *)
Lemma create_linestring_reaches_finish
  (g : G) (wnl : WayNodeList) (un : use_nodes) (dir : direction) :
  In call_linestring_finish (calls_of (create_linestring wnl un dir) g) ->
  calls_of (create_linestring wnl un dir) g = linestring_script wnl un dir.
Proof.
  intros I. destruct (create_linestring_calls wnl un dir g) as [ls E].
  rewrite calls_of_create_linestring in *. unfold linestring_script.
  rewrite app_comm_cons, attempted_app.
  destruct (returns (fst (run_calls _ g))) eqn:R.
  - now rewrite (attempted_returns _ _ R), attempted_single.
  - exfalso. rewrite E, app_nil_r in I. destruct I as [I | I]; [discriminate |].
    apply in_map_iff in I. destruct I as (l & I & _). discriminate.
Qed.

(** X5.  A list of one or more nodes that all have the same defined Location
    gives, with [use_nodes::unique], one [linestring_add_location] call
    and no more (the list being within the range of the [int] index when
    the direction is backward): a call that gets as far as
    [linestring_finish] has added this Location once, however many nodes
    there are.  This is the single point for which the GeoJSON factory
    throws in the test [linestring_with_two_same_locations]. *)
Theorem create_linestring_unique_of_equal_nodes
  (g : G) (wnl : WayNodeList) (dir : direction) (L : Location) :
  wnl <> [] ->
  L <> undefined ->
  Forall (fun n => location n = L) wnl ->
  dir = forward \/ fits_int wnl ->
  In call_linestring_finish (calls_of (create_linestring wnl unique dir) g) ->
  added_locations (calls_of (create_linestring wnl unique dir) g) = [L].
Proof.
  intros Ne D A F I.
  rewrite (create_linestring_reaches_finish _ _ _ _ I), added_locations_script.
  unfold linestring_locations.
  assert (V : visited dir wnl = wnl \/ visited dir wnl = rev wnl).
  { destruct dir; [right | now left].
    destruct F as [F | F]; [discriminate | now apply visited_backward]. }
  assert (A' : Forall (fun n => location n = L) (visited dir wnl)).
  { destruct V as [-> | ->]; [assumption | now apply Forall_rev]. }
  assert (Ne' : visited dir wnl <> []).
  { destruct V as [-> | ->]; [assumption |].
    intros E. apply Ne. apply (f_equal (@rev NodeRef)) in E.
    now rewrite rev_involutive in E. }
  rewrite (collapse_constant undefined (Forall_location_map A')).
  destruct (visited dir wnl) as [| n v]; [contradiction |]. simpl.
  apply Location_neq_true in D. rewrite Location_neq_sym in D. now rewrite D.
Qed.

End MoreLinestring.

Lemma create_linestring_all_adds_every_location_witness :
  added_locations (calls_of (create_linestring testdata.wnl all backward) CoordFactory.fresh)
  = rev (map location testdata.wnl)
  /\ length (added_locations
               (calls_of (create_linestring testdata.wnl all backward) CoordFactory.fresh))
     = 4%nat.
Proof.
  apply (create_linestring_all_adds_every_location
           CoordFactory.fresh testdata.wnl backward).
  - reflexivity.
  - right. vm_compute. discriminate.
Defined.

Lemma create_linestring_unique_is_all_collapsed_witness :
  added_locations (calls_of (create_linestring testdata.wnl unique forward) CoordFactory.fresh)
  = keep_changes undefined
      (added_locations
         (calls_of (create_linestring testdata.wnl all forward) CoordFactory.fresh)).
Proof.
  apply (create_linestring_unique_is_all_collapsed
           CoordFactory.fresh CoordFactory.fresh testdata.wnl forward); reflexivity.
Defined.

Lemma first_location_added_is_defined_witness :
  hd undefined
    (added_locations
       (calls_of (create_linestring testdata.wnl_undefined_first unique backward)
          CoordFactory.fresh))
  <> undefined.
Proof.
  apply (proj1 (@first_location_added_is_defined _ CoordFactory.impl CoordFactory.fresh
                  testdata.wnl_undefined_first backward []
                  (coordinates 35 47) [coordinates 32 42; undefined] [])).
  reflexivity.
Defined.

Lemma create_linestring_unique_of_equal_nodes_witness :
  added_locations
    (calls_of (create_linestring testdata.wnl_two_same unique backward) CoordFactory.fresh)
  = [coordinates 35 47].
Proof.
  apply (@create_linestring_unique_of_equal_nodes _ CoordFactory.impl
           CoordFactory.fresh testdata.wnl_two_same backward (coordinates 35 47)).
  - discriminate.
  - discriminate.
  - repeat constructor.
  - right. vm_compute. discriminate.
  - vm_compute. auto.
Defined.

(** ** The index of the backward loops stays in range *)

Section BackwardIndex.

Context {G : Type} {impl : GeometryImpl G}.

(** X7.  The backward loops of [create_linestring] read [wnl[i]] only for
    indices below [wnl.size()], whatever the size of the list (also
    where [wnl.size()-1] does not fit an [int]): what the loops do is not
    changed by anything put behind the end of the list.  For a list
    within the range of the [int] index they start at the last node. *)
Theorem backward_loops_stay_in_range
  (wnl behind : WayNodeList) (last_location : Location) (g : G) :
  (iterations (start_index wnl) <= length wnl)%nat
  /\ unique_backward_loop (wnl ++ behind) last_location (iterations (start_index wnl)) g
     = unique_backward_loop wnl last_location (iterations (start_index wnl)) g
  /\ all_backward_loop (wnl ++ behind) (iterations (start_index wnl)) g
     = all_backward_loop wnl (iterations (start_index wnl)) g
  /\ (fits_int wnl -> iterations (start_index wnl) = length wnl).
Proof.
  pose proof (index_in_range wnl) as R.
  assert (F : firstn (iterations (start_index wnl)) (wnl ++ behind)
              = firstn (iterations (start_index wnl)) wnl).
  { rewrite firstn_app.
    replace (iterations (start_index wnl) - length wnl)%nat with 0%nat by lia.
    simpl. apply app_nil_r. }
  split; [exact R |]. split; [| split].
  - rewrite !unique_backward_loop_forward by (rewrite ?length_app; lia).
    now rewrite F.
  - rewrite !all_backward_loop_forward by (rewrite ?length_app; lia).
    now rewrite F.
  - apply iterations_fits.
Qed.

End BackwardIndex.

Lemma backward_loops_stay_in_range_witness :
  iterations (start_index testdata.wnl) = 4%nat.
Proof.
  apply (@backward_loops_stay_in_range _ CoordFactory.impl
           testdata.wnl [] undefined CoordFactory.fresh).
  vm_compute. discriminate.
Defined.

(** ** The rings of a multipolygon *)

Lemma ring_starts_app (a b : list Call) :
  ring_starts (a ++ b) = ring_starts a ++ ring_starts b.
Proof.
  induction a as [| c a IH]; [reflexivity |].
  destruct c; simpl; now rewrite IH.
Qed.

Lemma ring_starts_adds (ls : list Location) :
  ring_starts (map call_multipolygon_add_location ls) = [].
Proof. induction ls as [| l ls IH]; [reflexivity | exact IH]. Qed.

Lemma ring_starts_item_script (it : Item) :
  ring_starts (item_script it) = if is_ring it then [type it] else [].
Proof.
  unfold item_script, is_ring.
  destruct (type it) eqn:T; try reflexivity; simpl;
    now rewrite ring_starts_app, ring_starts_adds.
Qed.

Lemma ring_starts_rings_script (area : Area) :
  ring_starts (rings_script area) = map type (filter is_ring area).
Proof.
  unfold rings_script. induction area as [| it area IH]; [reflexivity |].
  simpl. rewrite ring_starts_app, ring_starts_item_script, IH.
  now destruct (is_ring it).
Qed.

Lemma ring_starts_multipolygon_script (area : Area) :
  ring_starts (multipolygon_script area) = map type (filter is_ring area).
Proof.
  unfold multipolygon_script. rewrite ring_starts_app. simpl.
  rewrite ring_starts_rings_script.
  destruct (final_count area =? 0)%Z; simpl; apply app_nil_r.
Qed.

Lemma rings_script_no_finish (area : Area) :
  ~ In call_multipolygon_finish (rings_script area).
Proof.
  unfold rings_script. intros I. apply in_flat_map in I.
  destruct I as (it & _ & I). unfold item_script in I.
  destruct (type it); try exact I;
    (destruct I as [I | I]; [discriminate |]);
    apply in_app_or in I; destruct I as [I | [I | []]]; try discriminate;
    apply in_map_iff in I; destruct I as (l & I & _); discriminate.
Qed.

Section Rings.

Context {G : Type} {impl : GeometryImpl G}.

(** A call that got as far as [multipolygon_finish] has counted a ring
    and made all the calls of the script. *)
Lemma create_multipolygon_reaches_finish (area : Area) (g : G) :
  In call_multipolygon_finish (calls_of (create_multipolygon area) g) ->
  count_rings area <> 0%nat
  /\ calls_of (create_multipolygon area) g
     = call_multipolygon_start :: rings_script area ++ [call_multipolygon_finish].
Proof.
  intros I. destruct (create_multipolygon_calls area g) as (q & r & E & F & C).
  rewrite C in *. clear C.
  assert (Nq : ~ In call_multipolygon_finish (call_multipolygon_start :: q)).
  { intros [D | D]; [discriminate |].
    apply (rings_script_no_finish area). rewrite E. apply in_or_app. now left. }
  destruct (returns (fst (run_calls _ g))) eqn:R.
  - rewrite (F eq_refl), app_nil_r in E. subst q.
    destruct (final_count area =? 0)%Z eqn:Z.
    + rewrite app_nil_r in I. contradiction.
    + split; [| reflexivity]. intros N. unfold final_count in Z.
      rewrite N in Z. discriminate.
  - rewrite app_nil_r in I. contradiction.
Qed.

(** X8.  [create_multipolygon] starts a ring session for each ring of the
    Area and for nothing else, in the order of the Area and of the kind
    of the ring, outer or inner, whether the ring has nodes or not:
    however the call exits, the rings started are the first so many
    rings of the Area; when it returns, or gets as far as
    [multipolygon_finish], they are all of them.  And
    [multipolygon_finish] is called only for an Area with a ring. *)
Theorem create_multipolygon_rings_in_area_order (g : G) (area : Area) :
  (exists rest,
      map type (filter is_ring area)
      = ring_starts (calls_of (create_multipolygon area) g) ++ rest)
  /\ (returns (exit_of (create_multipolygon area) g) = true ->
      ring_starts (calls_of (create_multipolygon area) g) = map type (filter is_ring area)
      /\ length (ring_starts (calls_of (create_multipolygon area) g)) = count_rings area)
  /\ (In call_multipolygon_finish (calls_of (create_multipolygon area) g) ->
      count_rings area <> 0%nat
      /\ ring_starts (calls_of (create_multipolygon area) g)
         = map type (filter is_ring area)).
Proof.
  assert (S : forall cs,
             cs = call_multipolygon_start :: rings_script area ++ [call_multipolygon_finish] ->
             ring_starts cs = map type (filter is_ring area)).
  { intros cs ->. simpl. rewrite ring_starts_app, ring_starts_rings_script.
    apply app_nil_r. }
  split; [| split].
  - rewrite calls_of_create_multipolygon.
    destruct (attempted_prefix (multipolygon_script area) g) as [rest E].
    exists (ring_starts rest).
    now rewrite <- ring_starts_app, <- E, ring_starts_multipolygon_script.
  - rewrite exit_of_create_multipolygon. intros R.
    destruct (create_multipolygon_returns _ _ R) as [_ C].
    rewrite (S _ C). split; [reflexivity |].
    unfold count_rings. apply length_map.
  - intros I. destruct (create_multipolygon_reaches_finish _ _ I) as [N C].
    split; [exact N | exact (S _ C)].
Qed.

End Rings.

(** An outer ring without nodes and an inner ring: two ring sessions. *)
Lemma create_multipolygon_rings_in_area_order_witness :
  ring_starts
    (calls_of (create_multipolygon
                 [mkItem item_type.outer_ring []; mkItem (item_type.other 17) [];
                  mkItem item_type.inner_ring testdata.inner])
       CoordFactory.fresh)
  = [item_type.outer_ring; item_type.inner_ring].
Proof.
  apply (proj1 (proj2 (@create_multipolygon_rings_in_area_order _ CoordFactory.impl
                         CoordFactory.fresh
                         [mkItem item_type.outer_ring []; mkItem (item_type.other 17) [];
                          mkItem item_type.inner_ring testdata.inner]))).
  reflexivity.
Defined.

(** ** The order of the calls *)

Lemma follow_app (step : Progress -> Call -> option Progress) (a b : list Call)
  (p : Progress) :
  follow step p (a ++ b)
  = match follow step p a with
    | Some p' => follow step p' b
    | None => None
    end.
Proof.
  revert p. induction a as [| c a IH]; intros p; simpl.
  - reflexivity.
  - destruct (step p c); [apply IH | reflexivity].
Qed.

(** The calls before a point of a list of calls that is in order are in
    order. *)
Lemma follow_prefix (step : Progress -> Call -> option Progress) (q rest : list Call)
  (p final : Progress) :
  follow step p (q ++ rest) = Some final ->
  exists p', follow step p q = Some p'.
Proof.
  rewrite follow_app. destruct (follow step p q) as [p' |]; [eauto | discriminate].
Qed.

Lemma follow_linestring_adds (ls : list Location) :
  follow linestring_step (in_progress [linestring_session] 0)
    (map call_linestring_add_location ls)
  = Some (in_progress [linestring_session] 0).
Proof. induction ls as [| l ls IH]; [reflexivity | exact IH]. Qed.

Lemma follow_linestring_script (wnl : WayNodeList) (un : use_nodes) (dir : direction) :
  follow linestring_step not_started (linestring_script wnl un dir) = Some finished.
Proof.
  unfold linestring_script.
  change (follow linestring_step not_started (call_linestring_start :: ?cs))
    with (follow linestring_step (in_progress [linestring_session] 0) cs).
  now rewrite follow_app, follow_linestring_adds.
Qed.

Lemma follow_ring_adds (s : Session) (n : nat) (ls : list Location) :
  s = outer_ring_session \/ s = inner_ring_session ->
  follow multipolygon_step (in_progress [s; multipolygon_session] n)
    (map call_multipolygon_add_location ls)
  = Some (in_progress [s; multipolygon_session] n).
Proof.
  intros [-> | ->]; (induction ls as [| l ls IH]; [reflexivity | exact IH]).
Qed.

Lemma follow_item_script (it : Item) (n : nat) :
  follow multipolygon_step (in_progress [multipolygon_session] n) (item_script it)
  = Some (in_progress [multipolygon_session] (if is_ring it then S n else n)).
Proof.
  unfold item_script, is_ring. destruct (type it); try reflexivity.
  - change (follow multipolygon_step (in_progress [multipolygon_session] n)
              (call_multipolygon_outer_ring_start :: ?cs))
      with (follow multipolygon_step
              (in_progress [outer_ring_session; multipolygon_session] n) cs).
    now rewrite follow_app, follow_ring_adds by auto.
  - change (follow multipolygon_step (in_progress [multipolygon_session] n)
              (call_multipolygon_inner_ring_start :: ?cs))
      with (follow multipolygon_step
              (in_progress [inner_ring_session; multipolygon_session] n) cs).
    now rewrite follow_app, follow_ring_adds by auto.
Qed.

Lemma follow_rings_script (area : Area) (n : nat) :
  follow multipolygon_step (in_progress [multipolygon_session] n) (rings_script area)
  = Some (in_progress [multipolygon_session] (count_rings area + n)).
Proof.
  unfold rings_script. revert n. induction area as [| it area IH]; intros n.
  - reflexivity.
  - simpl flat_map. rewrite follow_app, follow_item_script, IH, count_rings_cons.
    destruct (is_ring it); do 2 f_equal; lia.
Qed.

Lemma follow_multipolygon_script (area : Area) :
  follow multipolygon_step not_started (multipolygon_script area)
  = Some (if (final_count area =? 0)%Z
          then in_progress [multipolygon_session] (count_rings area)
          else finished).
Proof.
  unfold multipolygon_script. rewrite follow_app.
  change (follow multipolygon_step not_started
            (call_multipolygon_start :: rings_script area))
    with (follow multipolygon_step (in_progress [multipolygon_session] 0)
            (rings_script area)).
  rewrite follow_rings_script, Nat.add_0_r.
  destruct (final_count area =? 0)%Z eqn:Z; [reflexivity |].
  unfold final_count in Z. destruct (count_rings area); [discriminate | reflexivity].
Qed.

Section Protocol.

Context {G : Type} {impl : GeometryImpl G}.

(** X9.  The factory keeps to the order of calls an implementation class
    is written for, however a call exits.  [create_linestring] makes
    linestring calls only: [linestring_start] first and once, then
    [linestring_add_location] calls, then [linestring_finish] once, and
    nothing after it.  [create_multipolygon] makes multipolygon calls
    only: [multipolygon_start] first and once, then ring after ring, a
    ring started only with no other ring open,
    [multipolygon_add_location] only inside a ring, each ring finished
    with the finish call of its kind, then [multipolygon_finish] once,
    with no ring open and at least one ring closed, and nothing after
    it.  A call that throws has made the first so many of these calls,
    the start among them; a call that returns has made them all. *)
Theorem calls_follow_protocol
  (g : G) (wnl : WayNodeList) (un : use_nodes) (dir : direction) (area : Area) :
  (calls_of (create_linestring wnl un dir) g <> []
   /\ exists p,
      follow linestring_step not_started (calls_of (create_linestring wnl un dir) g)
      = Some p
      /\ (returns (exit_of (create_linestring wnl un dir) g) = true -> p = finished))
  /\ (calls_of (create_multipolygon area) g <> []
      /\ exists p,
         follow multipolygon_step not_started (calls_of (create_multipolygon area) g)
         = Some p
         /\ (returns (exit_of (create_multipolygon area) g) = true -> p = finished)).
Proof.
  split; split.
  - rewrite calls_of_create_linestring. unfold linestring_script.
    destruct (attempted_not_nil call_linestring_start
                (map call_linestring_add_location (linestring_locations wnl un dir)
                   ++ [call_linestring_finish]) g) as [more ->].
    discriminate.
  - destruct (returns (exit_of (create_linestring wnl un dir) g)) eqn:R.
    + rewrite exit_of_create_linestring in R.
      rewrite (create_linestring_returns _ _ _ _ R), follow_linestring_script. eauto.
    + rewrite calls_of_create_linestring.
      destruct (attempted_prefix (linestring_script wnl un dir) g) as [rest E].
      pose proof (follow_linestring_script wnl un dir) as P.
      rewrite E in P. destruct (follow_prefix _ _ _ _ P) as [p ->].
      exists p. split; [reflexivity | discriminate].
  - rewrite calls_of_create_multipolygon. unfold multipolygon_script.
    rewrite <- app_comm_cons.
    destruct (attempted_not_nil call_multipolygon_start
                (rings_script area
                   ++ (if (final_count area =? 0)%Z then []
                       else [call_multipolygon_finish])) g) as [more ->].
    discriminate.
  - destruct (returns (exit_of (create_multipolygon area) g)) eqn:R.
    + rewrite exit_of_create_multipolygon in R.
      destruct (create_multipolygon_returns _ _ R) as [Z C].
      pose proof (follow_multipolygon_script area) as P.
      unfold multipolygon_script in P. rewrite Z in P.
      rewrite C. simpl app in P. rewrite P. eauto.
    + rewrite calls_of_create_multipolygon.
      destruct (attempted_prefix (multipolygon_script area) g) as [rest E].
      pose proof (follow_multipolygon_script area) as P.
      rewrite E in P. destruct (follow_prefix _ _ _ _ P) as [p ->].
      exists p. split; [reflexivity | discriminate].
Qed.

End Protocol.

(** The way of the tests, backward, and the Area of one outer and one
    inner ring: both calls return, with all their calls made in order. *)
Lemma calls_follow_protocol_witness :
  follow linestring_step not_started
    (calls_of (create_linestring testdata.wnl unique backward) CoordFactory.fresh)
  = Some finished
  /\ follow multipolygon_step not_started
       (calls_of (create_multipolygon testdata.area_1outer_1inner) CoordFactory.fresh)
     = Some finished.
Proof.
  destruct (calls_follow_protocol CoordFactory.fresh testdata.wnl unique backward
              testdata.area_1outer_1inner)
    as [[_ [p1 [P1 R1]]] [_ [p2 [P2 R2]]]].
  rewrite P1, P2, (R1 eq_refl), (R2 eq_refl). split; reflexivity.
Defined.

(* ================================================================== *)
(** * Further properties of the diff visitor *)

Section DispatchAnyExit.

Context {W : Type}.

Lemma recurse1_observed_any (d : diff.DiffObject) (i : nat) (h : diff.Handler W)
  (log : list diff.Invocation) (w : W) :
  (diff.legal d = false
   /\ diff.apply_diff_iterator_recurse1 d (diff.observed i h) (log, w)
      = (Throw (runtime_error "unknown type"%string), (log, w)))
  \/ (diff.legal d = true
      /\ fst (snd (diff.apply_diff_iterator_recurse1 d (diff.observed i h) (log, w)))
         = log ++ [diff.mkInvocation i (diff.callback_of d) d]).
Proof.
  unfold diff.apply_diff_iterator_recurse1, diff.legal, diff.callback_of.
  destruct (diff.type d); simpl;
    try (left; split; reflexivity);
    right; rewrite noted_run; split; reflexivity.
Qed.

Lemma recurse_observed_any (d : diff.DiffObject) (more : list (diff.Handler W)) :
  forall (i : nat) (h : diff.Handler W) (log : list diff.Invocation) (w : W),
  exists p rest,
    fst (snd (diff.apply_diff_iterator_recurse d (diff.observed i h)
                (diff.observed_from (S i) more) (log, w)))
    = log ++ p
    /\ map (fun j => diff.mkInvocation j (diff.callback_of d) d) (seq i (S (length more)))
       = p ++ rest
    /\ (returns (fst (diff.apply_diff_iterator_recurse d (diff.observed i h)
                        (diff.observed_from (S i) more) (log, w))) = true ->
        rest = [] /\ diff.legal d = true).
Proof.
  induction more as [| next more IH]; intros i h log w.
  - simpl. destruct (recurse1_observed_any d i h log w) as [[L ->] | [L E]].
    + exists [], [diff.mkInvocation i (diff.callback_of d) d]. simpl.
      rewrite app_nil_r. repeat split; discriminate.
    + exists [diff.mkInvocation i (diff.callback_of d) d], [].
      repeat split; assumption.
  - simpl diff.observed_from. simpl diff.apply_diff_iterator_recurse.
    unfold bind.
    destruct (recurse1_observed_any d i h log w) as [[L ->] | [L E]].
    + exists [], (map (fun j => diff.mkInvocation j (diff.callback_of d) d)
                    (seq i (S (length (next :: more))))).
      simpl. rewrite app_nil_r. repeat split; discriminate.
    + destruct (diff.apply_diff_iterator_recurse1 d (diff.observed i h) (log, w))
        as [[[] | e] [log1 w1]]; simpl in E; subst log1.
      * destruct (IH (S i) next (log ++ [diff.mkInvocation i (diff.callback_of d) d]) w1)
          as (p & rest & E1 & E2 & E3).
        exists (diff.mkInvocation i (diff.callback_of d) d :: p), rest.
        rewrite E1, <- app_assoc. split; [reflexivity |]. split; [| exact E3].
        change (seq i (S (length (next :: more))))
          with (i :: seq (S i) (S (length more))).
        rewrite map_cons, E2. reflexivity.
      * exists [diff.mkInvocation i (diff.callback_of d) d],
          (map (fun j => diff.mkInvocation j (diff.callback_of d) d)
               (seq (S i) (S (length more)))).
        simpl. repeat split; discriminate.
Qed.

Lemma apply_diff_loop_observed_any (handler : diff.Handler W) (more : list (diff.Handler W))
  (dits : list diff.DiffObject) :
  forall (log : list diff.Invocation) (w : W),
  exists p rest,
    fst (snd (diff.apply_diff_loop dits (diff.observed 0 handler)
                (diff.observed_from 1 more) (log, w)))
    = log ++ p
    /\ diff.expected_callbacks (S (length more)) dits = p ++ rest
    /\ (returns (fst (diff.apply_diff_loop dits (diff.observed 0 handler)
                        (diff.observed_from 1 more) (log, w))) = true ->
        rest = [] /\ Forall (fun d => diff.legal d = true) dits).
Proof.
  induction dits as [| d dits IH]; intros log w.
  - exists [], []. simpl. rewrite app_nil_r. repeat split. constructor.
  - simpl diff.apply_diff_loop. unfold bind.
    destruct (recurse_observed_any d more 0 handler log w) as (p1 & rest1 & E1 & E2 & E3).
    change (diff.expected_callbacks (S (length more)) (d :: dits))
      with (map (fun j => diff.mkInvocation j (diff.callback_of d) d)
                (seq 0 (S (length more)))
              ++ diff.expected_callbacks (S (length more)) dits).
    destruct (diff.apply_diff_iterator_recurse d (diff.observed 0 handler)
                (diff.observed_from 1 more) (log, w))
      as [[[] | e] [log1 w1]]; simpl in E1; subst log1.
    + destruct (E3 eq_refl) as [-> L]. rewrite app_nil_r in E2.
      destruct (IH (log ++ p1) w1) as (p2 & rest2 & F1 & F2 & F3).
      exists (p1 ++ p2), rest2. rewrite F1, E2, F2, !app_assoc.
      repeat split; try apply F3; try assumption.
      constructor; [exact L | now apply F3].
    + exists p1, (rest1 ++ diff.expected_callbacks (S (length more)) dits).
      rewrite E2, <- app_assoc. split; [reflexivity |].
      split; [reflexivity | discriminate].
Qed.

Lemma recurse_app (d : diff.DiffObject) (more1 more2 : list (diff.Handler W))
  (h : diff.Handler W) :
  forall (handler : diff.Handler W) (w : W),
    diff.apply_diff_iterator_recurse d handler (more1 ++ h :: more2) w
    = bind (diff.apply_diff_iterator_recurse d handler more1)
           (fun _ => diff.apply_diff_iterator_recurse d h more2) w.
Proof.
  induction more1 as [| next more1 IH]; intros handler w.
  - reflexivity.
  - simpl. rewrite bind_assoc. apply bind_ext. intros _ w'. apply IH.
Qed.

End DispatchAnyExit.

(** X10.  However [apply_diff] exits, with handlers that may throw and
    DiffObjects of any kind, the callbacks it has made are the first so
    many of the sequence "DiffObject by DiffObject, handler by handler":
    no callback of another kind than that of its DiffObject, none out of
    order, none twice, none left out before the last made.  When
    [apply_diff] returns, it has made them all, and every DiffObject was
    a node, a way or a relation. *)
Theorem callbacks_are_made_in_order
  (W TItem : Type) (DiffIterator : list TItem -> list diff.DiffObject)
  (range : list TItem) (handler : diff.Handler W) (more : list (diff.Handler W)) (w : W) :
  (exists rest,
      diff.expected_callbacks (S (length more)) (DiffIterator range)
      = diff.callbacks_of DiffIterator range handler more w ++ rest)
  /\ (returns (diff.exit_of DiffIterator range handler more w) = true ->
      diff.callbacks_of DiffIterator range handler more w
      = diff.expected_callbacks (S (length more)) (DiffIterator range)
      /\ Forall (fun d => diff.legal d = true) (DiffIterator range)).
Proof.
  unfold diff.callbacks_of, diff.exit_of, diff.apply_diff.
  destruct (apply_diff_loop_observed_any handler more (DiffIterator range) [] w)
    as (p & rest & E1 & E2 & E3).
  simpl in E1. rewrite E1, E2. split; [eauto |].
  intros R. destruct (E3 R) as [-> L]. now rewrite app_nil_r.
Qed.

(** Three handlers, the second throwing on ways: [apply_diff] does not
    return, and the callbacks made are five of the nine. *)
Lemma callbacks_are_made_in_order_witness :
  length (diff.callbacks_of testdata.as_given testdata.diffs testdata.counting
            [testdata.failing_on_way; testdata.counting] 0%nat) = 5%nat
  /\ (returns (diff.exit_of testdata.as_given testdata.diffs testdata.counting
                 [testdata.counting] 0%nat) = true ->
      diff.callbacks_of testdata.as_given testdata.diffs testdata.counting
        [testdata.counting] 0%nat
      = diff.expected_callbacks 2 testdata.diffs).
Proof.
  split; [reflexivity |]. intros R.
  apply (@callbacks_are_made_in_order nat diff.DiffObject testdata.as_given
           testdata.diffs testdata.counting [testdata.counting] 0%nat).
  exact R.
Defined.

Lemma bind_ok_inv {S A B : Type} (m : M S A) (k : A -> M S B) (s s' : S) (b : B) :
  bind m k s = (Ok b, s') ->
  exists a sm, m s = (Ok a, sm) /\ k a sm = (Ok b, s').
Proof.
  unfold bind. destruct (m s) as [[a | e] sm]; [eauto | discriminate].
Qed.

Lemma observed_from_app {W : Type} (a b : list (diff.Handler W)) (i : nat) :
  diff.observed_from i (a ++ b)
  = diff.observed_from i a ++ diff.observed_from (length a + i) b.
Proof.
  revert i. induction a as [| h a IH]; intros i; simpl.
  - reflexivity.
  - rewrite IH. do 3 f_equal. lia.
Qed.

Lemma recurse_is_dispatch_each {W : Type} (d : diff.DiffObject)
  (more : list (diff.Handler W)) :
  forall (handler : diff.Handler W) (w : W),
    diff.apply_diff_iterator_recurse d handler more w
    = diff.dispatch_each d (handler :: more) w.
Proof.
  induction more as [| next more IH]; intros handler w; simpl.
  - now rewrite bind_ret_tt.
  - apply bind_ext. intros _ w'. apply IH.
Qed.

Lemma dispatch_each_app {W : Type} (d : diff.DiffObject) (a b : list (diff.Handler W))
  (w : W) :
  diff.dispatch_each d (a ++ b) w
  = bind (diff.dispatch_each d a) (fun _ => diff.dispatch_each d b) w.
Proof.
  revert w. induction a as [| h a IH]; intros w; simpl.
  - reflexivity.
  - rewrite bind_assoc. apply bind_ext. intros _ w'. apply IH.
Qed.

Section DispatchToThrow.

Context {W : Type}.

(** The noted dispatch to one handler does what the dispatch does, and
    notes the callback unless the kind is illegal. *)
Lemma recurse1_observed_run (d : diff.DiffObject) (i : nat) (h : diff.Handler W)
  (log : list diff.Invocation) (w : W) :
  diff.apply_diff_iterator_recurse1 d (diff.observed i h) (log, w)
  = (fst (diff.apply_diff_iterator_recurse1 d h w),
     (log ++ (if diff.legal d
              then [diff.mkInvocation i (diff.callback_of d) d]
              else []),
      snd (diff.apply_diff_iterator_recurse1 d h w))).
Proof.
  unfold diff.apply_diff_iterator_recurse1, diff.legal, diff.callback_of.
  destruct (diff.type d); simpl; try apply noted_run;
    unfold throw; now rewrite app_nil_r.
Qed.

Lemma recurse1_ok_legal (d : diff.DiffObject) (h : diff.Handler W) (w w' : W) :
  diff.apply_diff_iterator_recurse1 d h w = (Ok tt, w') -> diff.legal d = true.
Proof.
  unfold diff.apply_diff_iterator_recurse1, diff.legal.
  destruct (diff.type d); try reflexivity; discriminate.
Qed.

Lemma dispatch_each_observed_ok (d : diff.DiffObject) (hs : list (diff.Handler W)) :
  forall (i : nat) (log : list diff.Invocation) (w w' : W),
    diff.dispatch_each d hs w = (Ok tt, w') ->
    diff.dispatch_each d (diff.observed_from i hs) (log, w)
    = (Ok tt,
       (log ++ map (fun j => diff.mkInvocation j (diff.callback_of d) d)
                   (seq i (length hs)),
        w')).
Proof.
  induction hs as [| h hs IH]; intros i log w w' E; simpl in *.
  - injection E as <-. now rewrite app_nil_r.
  - apply bind_ok_inv in E. destruct E as ([] & wm & E1 & E2).
    unfold bind. rewrite recurse1_observed_run, E1, (recurse1_ok_legal _ _ _ E1).
    simpl. rewrite (IH _ _ _ _ E2). now rewrite <- app_assoc.
Qed.

Lemma apply_diff_loop_observed_ok (handler : diff.Handler W) (more : list (diff.Handler W))
  (dits : list diff.DiffObject) :
  forall (log : list diff.Invocation) (w w' : W),
    diff.apply_diff_loop dits handler more w = (Ok tt, w') ->
    diff.apply_diff_loop dits (diff.observed 0 handler) (diff.observed_from 1 more) (log, w)
    = (Ok tt, (log ++ diff.expected_callbacks (S (length more)) dits, w')).
Proof.
  induction dits as [| d dits IH]; intros log w w' E; simpl in E.
  - injection E as <-. simpl. now rewrite app_nil_r.
  - apply bind_ok_inv in E. destruct E as ([] & wm & E1 & E2).
    rewrite recurse_is_dispatch_each in E1.
    simpl diff.apply_diff_loop. unfold bind.
    rewrite recurse_is_dispatch_each.
    change (diff.observed 0 handler :: diff.observed_from 1 more)
      with (diff.observed_from 0 (handler :: more)).
    rewrite (dispatch_each_observed_ok _ _ 0 log _ E1).
    rewrite (IH _ _ _ E2).
    unfold diff.expected_callbacks. simpl flat_map. now rewrite <- app_assoc.
Qed.

(** A throw in the dispatch of one DiffObject ends the dispatch of that
    DiffObject and the loop over the DiffObjects. *)
Lemma dispatch_stops_at_throw (dits before rest : list diff.DiffObject) (d : diff.DiffObject)
  (handler h : diff.Handler W) (more earlier later : list (diff.Handler W))
  (w w1 w2 w3 : W) (e : exn) :
  handler :: more = earlier ++ h :: later ->
  dits = before ++ d :: rest ->
  diff.apply_diff_loop before handler more w = (Ok tt, w1) ->
  diff.dispatch_each d earlier w1 = (Ok tt, w2) ->
  diff.apply_diff_iterator_recurse1 d h w2 = (Throw e, w3) ->
  diff.apply_diff_iterator_recurse d handler more w1 = (Throw e, w3)
  /\ diff.apply_diff_loop dits handler more w = (Throw e, w3).
Proof.
  intros Hs -> B E1 E2.
  assert (T : diff.apply_diff_iterator_recurse d handler more w1 = (Throw e, w3)).
  { rewrite recurse_is_dispatch_each, Hs, dispatch_each_app, (bind_ok _ _ _ E1).
    simpl. now rewrite (bind_throw _ _ _ E2). }
  split; [exact T |].
  rewrite apply_diff_loop_app, (bind_ok _ _ _ B). simpl.
  now rewrite (bind_throw _ _ _ T).
Qed.

End DispatchToThrow.

(** X11.  [apply_diff] catches nothing.  When a callback throws, be it
    of the first handler, of the only handler or of a later one, the
    DiffObjects before and the handlers before it having returned, the
    dispatch of the DiffObject and the whole of [apply_diff] exit with
    that exception, the handlers in the state in which the throwing
    callback left them.  The callbacks made are those for the DiffObjects
    before, those of the handlers before for this DiffObject, and the one
    that threw: the handlers after it are not called for this
    DiffObject, and no handler is called for the DiffObjects after it. *)
Theorem handler_exception_ends_dispatch
  (W TItem : Type) (DiffIterator : list TItem -> list diff.DiffObject) (range : list TItem)
  (d : diff.DiffObject) (before rest : list diff.DiffObject)
  (handler h : diff.Handler W) (more earlier later : list (diff.Handler W))
  (w w1 w2 w3 : W) (e : exn) :
  handler :: more = earlier ++ h :: later ->
  DiffIterator range = before ++ d :: rest ->
  diff.apply_diff_loop before handler more w = (Ok tt, w1) ->
  diff.dispatch_each d earlier w1 = (Ok tt, w2) ->
  diff.apply_diff_iterator_recurse1 d h w2 = (Throw e, w3) ->
  diff.apply_diff_iterator_recurse d handler more w1 = (Throw e, w3)
  /\ diff.apply_diff DiffIterator range handler more w = (Throw e, w3)
  /\ diff.exit_of DiffIterator range handler more w = Throw e
  /\ diff.callbacks_of DiffIterator range handler more w
     = diff.expected_callbacks (S (length more)) before
         ++ map (fun j => diff.mkInvocation j (diff.callback_of d) d)
                (seq 0 (length earlier))
         ++ (if diff.legal d
             then [diff.mkInvocation (length earlier) (diff.callback_of d) d]
             else []).
Proof.
  intros Hs E B E1 E2.
  destruct (@dispatch_stops_at_throw W (DiffIterator range) before rest d handler h
              more earlier later w w1 w2 w3 e Hs E B E1 E2) as [T1 T2].
  split; [exact T1 |]. split; [exact T2 |].
  assert (Ho : diff.observed 0 handler :: diff.observed_from 1 more
               = diff.observed_from 0 earlier
                   ++ diff.observed (length earlier) h
                   :: diff.observed_from (S (length earlier)) later).
  { change (diff.observed 0 handler :: diff.observed_from 1 more)
      with (diff.observed_from 0 (handler :: more)).
    rewrite Hs, observed_from_app. simpl. now rewrite Nat.add_0_r. }
  pose proof (@apply_diff_loop_observed_ok W handler more before [] w w1 B) as Bo.
  pose proof (@dispatch_each_observed_ok W d earlier 0
                (diff.expected_callbacks (S (length more)) before) w1 w2 E1) as E1o.
  pose proof (@recurse1_observed_run W d (length earlier) h
                (diff.expected_callbacks (S (length more)) before
                   ++ map (fun j => diff.mkInvocation j (diff.callback_of d) d)
                          (seq 0 (length earlier))) w2) as E2o.
  rewrite E2 in E2o. simpl fst in E2o. simpl snd in E2o.
  simpl app in Bo.
  destruct (@dispatch_stops_at_throw _ (DiffIterator range) before rest d _ _ _ _ _
              _ _ _ _ e Ho E Bo E1o E2o) as [_ To].
  unfold diff.exit_of, diff.callbacks_of, diff.apply_diff.
  rewrite To. simpl. split; [reflexivity |]. now rewrite <- app_assoc.
Qed.

(** Three handlers, the second throwing on ways: after the node, the way
    is given to the first handler and to the second; the third does not
    see the way, and nobody sees the relation.  And the throwing handler
    alone: one callback for the node, one for the way. *)
Lemma handler_exception_ends_dispatch_witness :
  (diff.exit_of testdata.as_given testdata.diffs testdata.counting
     [testdata.failing_on_way; testdata.counting] 0%nat
   = Throw (runtime_error "way refused"%string)
   /\ diff.callbacks_of testdata.as_given testdata.diffs testdata.counting
        [testdata.failing_on_way; testdata.counting] 0%nat
      = diff.expected_callbacks 3 (firstn 1 testdata.diffs)
          ++ [diff.mkInvocation 0 diff.way_callback (diff.mkDiffObject item_type.way 1 1);
              diff.mkInvocation 1 diff.way_callback (diff.mkDiffObject item_type.way 1 1)])
  /\ (diff.exit_of testdata.as_given testdata.diffs testdata.failing_on_way [] 0%nat
      = Throw (runtime_error "way refused"%string)
      /\ diff.callbacks_of testdata.as_given testdata.diffs testdata.failing_on_way [] 0%nat
         = [diff.mkInvocation 0 diff.node_callback (diff.mkDiffObject item_type.node 1 2);
            diff.mkInvocation 0 diff.way_callback (diff.mkDiffObject item_type.way 1 1)]).
Proof.
  split.
  - destruct (@handler_exception_ends_dispatch nat diff.DiffObject
                testdata.as_given testdata.diffs
                (diff.mkDiffObject item_type.way 1 1)
                (firstn 1 testdata.diffs) (skipn 2 testdata.diffs)
                testdata.counting testdata.failing_on_way
                [testdata.failing_on_way; testdata.counting]
                [testdata.counting] [testdata.counting]
                0%nat 3%nat 4%nat 4%nat (runtime_error "way refused"%string)
                eq_refl eq_refl eq_refl eq_refl eq_refl)
      as (_ & _ & X & C).
    split; [exact X | exact C].
  - destruct (@handler_exception_ends_dispatch nat diff.DiffObject
                testdata.as_given testdata.diffs
                (diff.mkDiffObject item_type.way 1 1)
                (firstn 1 testdata.diffs) (skipn 2 testdata.diffs)
                testdata.failing_on_way testdata.failing_on_way
                [] [] []
                0%nat 1%nat 1%nat 1%nat (runtime_error "way refused"%string)
                eq_refl eq_refl eq_refl eq_refl eq_refl)
      as (_ & _ & X & C).
    split; [exact X | exact C].
Defined.

(* ================================================================== *)
(** * What the factory looks at *)

Lemma visited_locations (wnl wnl' : WayNodeList) (dir : direction) :
  map location wnl = map location wnl' ->
  map location (visited dir wnl) = map location (visited dir wnl').
Proof.
  intros E. destruct dir; [| exact E]. unfold visited.
  assert (L : length wnl = length wnl').
  { now rewrite <- (length_map location wnl), E, length_map. }
  unfold start_index. rewrite L, !map_rev, <- !firstn_map. now rewrite E.
Qed.

Section OnlyLocations.

Context {G : Type} {impl : GeometryImpl G}.

(** X12.  The factory looks at the Locations of the nodes and at nothing else
    of them: two node lists with the same Locations in the same order,
    whatever the ids, give the same calls on the implementation, the same
    exit and the same state, for [create_linestring] in every mode and
    for [add_points]. *)
Theorem node_ids_are_not_looked_at
  (g : G) (wnl wnl' : NodeRefList) (un : use_nodes) (dir : direction) :
  map location wnl = map location wnl' ->
  create_linestring wnl un dir g = create_linestring wnl' un dir g
  /\ add_points wnl g = add_points wnl' g.
Proof.
  intros E. split.
  - rewrite !create_linestring_script. unfold linestring_locations.
    now rewrite (@visited_locations wnl wnl' dir E).
  - rewrite !add_points_script. unfold ring_locations. now rewrite E.
Qed.

(** X13.  A node list all of whose Locations are undefined is, with
    [use_nodes::unique], as good as empty: no Location is handed to the
    implementation, so nothing is thrown for any of them, and
    [create_linestring] does what it does on the empty list; [add_points]
    makes no call at all. *)
Theorem undefined_nodes_are_all_skipped
  (g : G) (wnl : NodeRefList) (dir : direction) :
  Forall (fun n => location n = undefined) wnl ->
  create_linestring wnl unique dir g = create_linestring [] unique dir g
  /\ add_points wnl g = (Ok tt, g).
Proof.
  intros A.
  assert (C : forall v : NodeRefList,
             Forall (fun n => location n = undefined) v ->
             collapse undefined (map location v) = []).
  { intros v Av. rewrite (collapse_constant undefined (Forall_location_map Av)).
    now destruct (map location v). }
  split.
  - rewrite !create_linestring_script. unfold linestring_locations.
    rewrite C; [now destruct dir |].
    destruct dir; simpl; [| exact A].
    apply Forall_rev.
    rewrite <- (firstn_skipn (iterations (start_index wnl)) wnl) in A.
    apply Forall_app in A. now destruct A as [A _].
  - rewrite add_points_script. unfold ring_locations. now rewrite (C _ A).
Qed.

End OnlyLocations.

Lemma node_ids_are_not_looked_at_witness :
  create_linestring testdata.wnl unique backward CoordFactory.fresh
  = create_linestring (map (fun n => mkNodeRef 0 (location n)) testdata.wnl)
      unique backward CoordFactory.fresh.
Proof.
  apply (@node_ids_are_not_looked_at _ CoordFactory.impl CoordFactory.fresh
           testdata.wnl (map (fun n => mkNodeRef 0 (location n)) testdata.wnl)
           unique backward).
  reflexivity.
Defined.

Lemma undefined_nodes_are_all_skipped_witness :
  create_linestring [mkNodeRef 1 undefined; mkNodeRef 2 undefined] unique forward
    CoordFactory.fresh
  = create_linestring [] unique forward CoordFactory.fresh.
Proof.
  apply (@undefined_nodes_are_all_skipped _ CoordFactory.impl CoordFactory.fresh
           [mkNodeRef 1 undefined; mkNodeRef 2 undefined] forward).
  repeat constructor.
Defined.
